(** * multyproc_asyncio: the ticker and image harvesting pipelines

    A shallow embedding of [src/ticker.py] and [src/image_scraper.py].

    Both scripts share one protocol.  A coordinator ([main]) spawns worker
    processes, puts work items and then one ['done'] string per worker on a
    task queue, and reads status strings back from a result queue.  A worker
    ([Ticker.run], [Image.run]) first collects items until it sees ['done'],
    then fetches them either one after the other ([sync_process]) or as
    coroutines run by [asyncio.gather] ([asyncio_sessions]).

    What the code does to the outside world is recorded as a list of
    [event]s: HTTP requests issued, files opened and written, worker
    processes started, puts and gets on the two queues.  A computation is a pair of the
    events it produced and the way it ended (returned, raised, or blocked on
    an empty queue).  The HTTP server and the HTML parser are outside the
    repository and are section variables.  Logging calls have no effect on
    the protocol and are left out. *)

From Stdlib Require Import ZArith String Ascii List Lia.
From stdpp Require Import base option list strings pretty gmap relations.

Local Open Scope Z_scope.

(** ** Python strings *)

Module PyStr.

(** [s.startswith(p)]. *)
Fixpoint starts_with (p s : string) : bool :=
  match p, s with
  | EmptyString, _ => true
  | String _ _, EmptyString => false
  | String a p', String b s' => if Ascii.eqb a b then starts_with p' s' else false
  end.

(** [needle in hay]: [needle] occurs in [hay] at some offset. *)
Fixpoint contains (needle hay : string) : bool :=
  starts_with needle hay ||
  match hay with
  | EmptyString => false
  | String _ hay' => contains needle hay'
  end.

(** [s.split(sep)] for a one-character separator.  [cur] is the segment
    being read; the result is never empty. *)
Fixpoint split_go (sep : ascii) (cur s : string) : list string :=
  match s with
  | EmptyString => [cur]
  | String c s' =>
      if Ascii.eqb c sep then cur :: split_go sep EmptyString s'
      else split_go sep (cur +:+ String c EmptyString) s'
  end.

Definition split (sep : ascii) (s : string) : list string :=
  split_go sep EmptyString s.

(** [s.split("/")[-1]]. *)
Definition last_segment (s : string) : string :=
  List.last (split "/"%char s) EmptyString.

(** [not s] for a string: the empty string is falsy. *)
Definition is_empty (s : string) : bool :=
  match s with EmptyString => true | _ => false end.

End PyStr.

(** ** Queue items

    The task queue carries whatever the coordinator puts on it: page numbers
    (ints) in the image script, the entries of the JSON ticker list in the
    ticker script, and the string ['done'] in both. *)

Inductive task :=
| TInt (n : Z)
| TStr (s : string).

Global Instance task_eq_dec : EqDecision task.
Proof. solve_decision. Defined.

(** The sentinel both scripts put and test for. *)
Definition DONE : task := TStr "done".

(** [task == 'done']: an int never equals a string. *)
Definition is_done (t : task) : bool :=
  match t with
  | TStr s => String.eqb s "done"
  | TInt _ => false
  end.

(** [f'{t}']: how an item appears inside an f-string. *)
Definition str (t : task) : string :=
  match t with
  | TStr s => s
  | TInt n => pretty n
  end.

(** ** Effects *)

Inductive open_mode := ModeW | ModeWB | ModeA.

Inductive event :=
| EGet (url : string)                     (* an HTTP GET is issued *)
| EOpen (path : string) (m : open_mode)   (* open(path, m) *)
| EWrite (path : string) (data : string)  (* file.write(data) *)
| EPut (record : string)                  (* result_queue.put(record) *)
| ETaskDone                               (* task_queue.task_done() *)
| EStart                                  (* a worker process is started *)
| ETaskPut (t : task)                     (* task_queue.put(t) *)
| EResultGet (record : string).           (* result_queue.get() gave record *)

Inductive exn :=
| TypeError       (* str written to a file opened in binary mode *)
| ParserError     (* lxml could not parse the document *)
| IndexError      (* subscript of a list that is too short *)
| ValueError      (* int() of something that is not a number *)
| OSError.        (* open() refused: FileNotFoundError, IsADirectoryError, ... *)

Inductive outcome (A : Type) :=
| Returned (a : A)
| Raised (e : exn)
| Blocked.        (* a queue [get] that never returns *)
Arguments Returned {A} a.
Arguments Raised {A} e.
Arguments Blocked {A}.

(** A computation: the events it produced, in order, and how it ended. *)
Definition M (A : Type) : Type := list event * outcome A.

Definition ret {A} (a : A) : M A := ([], Returned a).
Definition emit (e : event) : M unit := ([e], Returned tt).
Definition raise {A} (e : exn) : M A := ([], Raised e).
Definition blocked {A} : M A := ([], Blocked).

Definition bind {A B} (m : M A) (k : A -> M B) : M B :=
  match m with
  | (tr, Returned a) => let '(tr', o) := k a in (tr ++ tr', o)
  | (tr, Raised e) => (tr, Raised e)
  | (tr, Blocked) => (tr, Blocked)
  end.

Notation "x <~ c1 ; c2" := (bind c1 (fun x => c2))
  (at level 20, c1 at level 100, c2 at level 200, only parsing).
Notation "'perform' c1 ; c2" := (bind c1 (fun _ => c2))
  (at level 10, c1 at level 100, c2 at level 200, only parsing).

Definition trace {A} (m : M A) : list event := fst m.
Definition result {A} (m : M A) : outcome A := snd m.

(** [for x in xs: body(x)]. *)
Fixpoint for_each {A} (body : A -> M unit) (xs : list A) : M unit :=
  match xs with
  | [] => ret tt
  | x :: xs' => perform body x; for_each body xs'
  end.

(** The strings put on the result queue, in order. *)
Definition is_put (e : event) : bool :=
  match e with EPut _ => true | _ => false end.

Fixpoint puts (tr : list event) : list string :=
  match tr with
  | [] => []
  | EPut r :: tr' => r :: puts tr'
  | _ :: tr' => puts tr'
  end.

(** ** The file system

    Files are created by [open] and extended by [write].  Mode ['w'] (and
    ['wb']) truncates an existing file; mode ['a'] keeps it.  A file is its
    content: two handles that are open on one path at the same time are not
    told apart, so what is computed here is what opens and writes that do
    not overlap leave behind. *)

Definition apply_event (fs : gmap string string) (e : event) : gmap string string :=
  match e with
  | EOpen p ModeA =>
      match fs !! p with
      | Some _ => fs
      | None => <[p := ""]> fs
      end
  | EOpen p _ => <[p := ""]> fs
  | EWrite p d => <[p := default "" (fs !! p) +:+ d]> fs
  | _ => fs
  end.

Definition apply_trace (fs : gmap string string) (tr : list event) : gmap string string :=
  fold_left apply_event tr fs.

(** An HTTP response as the code reads it: status code and body. *)
Record response := { status : Z; body : string }.

(** ** [asyncio.gather]

    The coroutines handed to [gather] read nothing that another coroutine or
    another process writes: each one is determined by the server's answers,
    so each is given by its own events and outcome.  The event loop decides
    how their events interleave.  A schedule [sched] names, step by step,
    the coroutine that performs its next event; naming a coroutine that is
    finished (or does not exist) is a step that does nothing.  When the
    schedule is used up the coroutines still unfinished run to their end in
    list order, so every schedule describes a complete execution.

    With the default [return_exceptions=False], the first exception raised
    by a coroutine is raised by [gather]; the caller does not catch it, and
    [asyncio.run] cancels the coroutines still running.  The results come
    back in the order of the arguments, whatever the completion order. *)

Section Gather.
Context {A : Type}.

(** The exception of the first coroutine that has nothing left to do but
    raise. *)
Fixpoint first_raised (pend : list (M A)) : option exn :=
  match pend with
  | [] => None
  | ([], Raised ex) :: _ => Some ex
  | _ :: pend' => first_raised pend'
  end.

(** Run the coroutines to their end, one after the other. *)
Fixpoint finish (pend : list (M A)) : M (list A) :=
  match pend with
  | [] => ret []
  | c :: pend' =>
      a <~ c;
      rest <~ finish pend';
      ret (a :: rest)
  end.

Fixpoint gather (sched : list nat) (pend : list (M A)) : M (list A) :=
  match first_raised pend with
  | Some ex => raise ex
  | None =>
      match sched with
      | [] => finish pend
      | i :: sched' =>
          match pend !! i with
          | Some (e :: later, o) =>
              perform emit e;
              gather sched' (<[i := (later, o)]> pend)
          | _ => gather sched' pend
          end
      end
  end.

End Gather.

(** ** [ticker.py]: the worker *)

Module Ticker.
Section Worker.

(** The server: the response to a GET of a URL (with the worker's fixed
    query parameters [self.params]). *)
Variable http : string -> response.

(** [self.base_url], [self.out_dir], [self.mode]. *)
Variables base_url out_dir mode : string.

(** [Ticker.get]. *)
Definition get (ticker : task) : M string :=
  let url := base_url +:+ str ticker in
  perform emit (EGet url);
  let resp := http url in
  if negb (status resp =? 200) then ret ""
  else ret (body resp).

(** [Ticker.aio_process]. *)
Definition aio_process (ticker : task) : M string :=
  let fname := out_dir +:+ "/" +:+ str ticker +:+ ".csv" in
  res <~ get ticker;
  if PyStr.is_empty res then ret (str ticker +:+ " fetch failed")
  else
    perform emit (EOpen fname ModeA);
    perform emit (EWrite fname res);
    ret (str ticker +:+ " fetch succeeded").

(** [Ticker.asyncio_sessions]. *)
Definition asyncio_sessions (sched : list nat) (tickers : list task) : M unit :=
  let tasks := map aio_process tickers in
  results <~ gather sched tasks;
  for_each (fun r => emit (EPut r)) results.

(** The body of the loop of [Ticker.sync_process]. *)
Definition sync_one (ticker : task) : M unit :=
  let url := base_url +:+ str ticker in
  perform emit (EGet url);
  let resp := http url in
  if negb (status resp =? 200) then
    emit (EPut (str ticker +:+ " fetch failed"))
  else
    let data := body resp in
    let file_name := out_dir +:+ "/" +:+ str ticker +:+ ".csv" in
    perform emit (EOpen file_name ModeW);
    perform emit (EWrite file_name data);
    emit (EPut (str ticker +:+ " fetch succeeded")).

(** [Ticker.sync_process]. *)
Definition sync_process (tickers : list task) : M unit :=
  for_each sync_one tickers.

(** The intake loop of [Ticker.run].  [inbox] is what this worker's
    successive [task_queue.get()] calls return; when it is used up the
    next [get] blocks.  Returns the collected items and the part of
    [inbox] never read. *)
Fixpoint intake (inbox : list task) (tickers : list task) : M (list task * list task) :=
  match inbox with
  | [] => blocked
  | t :: inbox' =>
      if is_done t then ret (tickers, inbox')
      else
        perform emit ETaskDone;
        intake inbox' (tickers ++ [t])
  end.

(** [Ticker.run].  Returns what the worker left unread. *)
Definition run (sched : list nat) (inbox : list task) : M (list task) :=
  got <~ intake inbox [];
  let '(tickers, unread) := got in
  perform (if String.eqb mode "async" then asyncio_sessions sched tickers
           else sync_process tickers);
  perform emit ETaskDone;
  ret unread.

End Worker.
End Ticker.

(** ** [image_scraper.py]: the worker *)

Module Image.

(** What [Image.get] hands back: [resp.text()] is a [str], [resp.read()]
    is [bytes], and the failure marker is the [str] ['failed']. *)
Inductive payload :=
| PText (s : string)
| PBytes (b : string).

Definition payload_data (p : payload) : string :=
  match p with PText s => s | PBytes b => b end.

(** [if image:] an empty [str] or [bytes] is falsy. *)
Definition truthy (p : payload) : bool :=
  negb (PyStr.is_empty (payload_data p)).

(** The host that an image URL must mention. *)
Definition HOST : string := "images.stockfreeimages.com".

Section Worker.

(** The server. *)
Variable http : string -> response.

(** [html.fromstring(doc).xpath('//img/@src')]: the [src] attributes of
    the [img] elements of a document, in document order; [None] when
    [fromstring] rejects the document. *)
Variable img_srcs : string -> option (list string).

(** [config['SCRAPER']['URL']] and [config['SCRAPER']['OUT_DIR']], read
    from the settings module inside the coroutines. *)
Variables config_URL config_OUT_DIR : string.

(** [self.url], [self.out_dir], [self.mode], [self.item]. *)
Variables url out_dir mode item : string.

(** [Image.get]. *)
Definition get (u : string) (content_type : string) : M payload :=
  perform emit (EGet u);
  let resp := http u in
  if negb (status resp =? 200) then ret (PText "failed")
  else if String.eqb content_type "text" then ret (PText (body resp))
  else ret (PBytes (body resp)).

(** [await file.write(image)] on a file opened with ["wb"]. *)
Definition write_binary (path : string) (image : payload) : M unit :=
  match image with
  | PBytes b => emit (EWrite path b)
  | PText _ => raise TypeError
  end.

(** [Image.aio_process]. *)
Definition aio_process (image_url : string) (content_type : string) : M string :=
  let img_path := config_OUT_DIR +:+ "/" +:+ PyStr.last_segment image_url in
  image <~ get image_url content_type;
  perform (if truthy image then
             perform emit (EOpen img_path ModeWB);
             write_binary img_path image
           else ret tt);
  ret ("Fetch succeeded: " +:+ image_url).

(** The image URLs of a parsed listing that pass the host test. *)
Definition wanted (srcs : list string) : list string :=
  filter (fun image_url => PyStr.contains HOST image_url = true) srcs.

(** One turn of the [for page in pages] loop of [asyncio_sessions]: the
    URLs for which a coroutine is appended to [tasks].  The inner loop
    over [range(amount_pages)] has [amount_pages = 1]. *)
Definition listing_async (page : task) : M (list string) :=
  response <~ get (config_URL +:+ "p" +:+ str page +:+ "/" +:+ item +:+ ".html") "text";
  match img_srcs (payload_data response) with
  | None => raise ParserError
  | Some srcs =>
      let amount_pages := 1%nat in
      ret (flat_map (fun _ => wanted srcs) (seq 0 amount_pages))
  end.

Fixpoint listings_async (pages : list task) : M (list string) :=
  match pages with
  | [] => ret []
  | page :: pages' =>
      urls <~ listing_async page;
      more <~ listings_async pages';
      ret (urls ++ more)
  end.

(** [Image.asyncio_sessions]. *)
Definition asyncio_sessions (sched : list nat) (pages : list task) : M unit :=
  urls <~ listings_async pages;
  let tasks := map (fun image_url => aio_process image_url "image") urls in
  results <~ gather sched tasks;
  for_each (fun r => emit (EPut r)) results.

(** The body of the loop over the image URLs in [sync_process]. *)
Definition sync_image (page : task) (image_url : string) : M unit :=
  perform emit (EGet image_url);
  let r := http image_url in
  if status r =? 200 then
    let path := "images/" +:+ PyStr.last_segment image_url in
    perform emit (EOpen path ModeWB);
    perform emit (EWrite path (body r));
    emit (EPut (str page +:+ " fetch succeeded"))
  else ret tt.

(** The body of the loop over the pages in [sync_process]. *)
Definition sync_page (page : task) : M unit :=
  let listing := url +:+ "p" +:+ str page +:+ "/" +:+ item +:+ ".html" in
  perform emit (EGet listing);
  let res := http listing in
  match img_srcs (body res) with
  | None => raise ParserError
  | Some srcs => for_each (sync_image page) (wanted srcs)
  end.

(** [Image.sync_process]. *)
Definition sync_process (pages : list task) : M unit :=
  for_each sync_page pages.

(** The intake loop of [Image.run]; see [Ticker.intake]. *)
Fixpoint intake (inbox : list task) (pages : list task) : M (list task * list task) :=
  match inbox with
  | [] => blocked
  | t :: inbox' =>
      if is_done t then ret (pages, inbox')
      else
        perform emit ETaskDone;
        intake inbox' (pages ++ [t])
  end.

(** [Image.run].  Returns what the worker left unread. *)
Definition run (sched : list nat) (inbox : list task) : M (list task) :=
  got <~ intake inbox [];
  let '(pages, unread) := got in
  perform (if String.eqb mode "async" then asyncio_sessions sched pages
           else sync_process pages);
  perform emit ETaskDone;
  ret unread.

End Worker.
End Image.

(** ** The workers on a disk that can refuse

    [open] raises when the directory of the path does not exist
    ([FileNotFoundError]), when the path names a directory
    ([IsADirectoryError], as for an image URL that ends in a slash), or when
    the process may not write there.  The scripts never create a directory,
    so which paths can be opened is fixed for a run: [open_fails].  The
    definitions below are the workers' file-writing methods with that
    failure; the requests, the intake loops and the listings are the ones
    above. *)

(** [open(path, m)] and [aiofiles.open(path, m)]. *)
Definition open_file (open_fails : string -> bool) (path : string) (m : open_mode)
    : M unit :=
  if open_fails path then raise OSError else emit (EOpen path m).

Module TickerDisk.
Section Worker.

Variable http : string -> response.
Variable open_fails : string -> bool.

(** [self.base_url], [self.out_dir], [self.mode]. *)
Variables base_url out_dir mode : string.

(** [Ticker.aio_process]. *)
Definition aio_process (ticker : task) : M string :=
  let fname := out_dir +:+ "/" +:+ str ticker +:+ ".csv" in
  res <~ Ticker.get http base_url ticker;
  if PyStr.is_empty res then ret (str ticker +:+ " fetch failed")
  else
    perform open_file open_fails fname ModeA;
    perform emit (EWrite fname res);
    ret (str ticker +:+ " fetch succeeded").

(** [Ticker.asyncio_sessions]. *)
Definition asyncio_sessions (sched : list nat) (tickers : list task) : M unit :=
  let tasks := map aio_process tickers in
  results <~ gather sched tasks;
  for_each (fun r => emit (EPut r)) results.

(** The body of the loop of [Ticker.sync_process]. *)
Definition sync_one (ticker : task) : M unit :=
  let url := base_url +:+ str ticker in
  perform emit (EGet url);
  let resp := http url in
  if negb (status resp =? 200) then
    emit (EPut (str ticker +:+ " fetch failed"))
  else
    let data := body resp in
    let file_name := out_dir +:+ "/" +:+ str ticker +:+ ".csv" in
    perform open_file open_fails file_name ModeW;
    perform emit (EWrite file_name data);
    emit (EPut (str ticker +:+ " fetch succeeded")).

(** [Ticker.sync_process]. *)
Definition sync_process (tickers : list task) : M unit :=
  for_each sync_one tickers.

(** What [Ticker.run] does with the batch it has collected. *)
Definition dispatch (sched : list nat) (tickers : list task) : M unit :=
  if String.eqb mode "async" then asyncio_sessions sched tickers
  else sync_process tickers.

(** [Ticker.run].  Returns what the worker left unread. *)
Definition run (sched : list nat) (inbox : list task) : M (list task) :=
  got <~ Ticker.intake inbox [];
  let '(tickers, unread) := got in
  perform dispatch sched tickers;
  perform emit ETaskDone;
  ret unread.

End Worker.
End TickerDisk.

Module ImageDisk.
Section Worker.

Variable http : string -> response.
Variable img_srcs : string -> option (list string).
Variable open_fails : string -> bool.

(** The reads in which [shutil.copyfileobj] gets a body from [r.raw]: it
    writes each non-empty read and stops at the first empty one, so an
    empty body is no write at all.  How a body is cut into reads is up to
    the connection. *)
Variable reads : string -> list string.

(** [config['SCRAPER']['URL']] and [config['SCRAPER']['OUT_DIR']]. *)
Variables config_URL config_OUT_DIR : string.

(** [self.url], [self.item]. *)
Variables url item : string.

(** [Image.aio_process]. *)
Definition aio_process (image_url : string) (content_type : string) : M string :=
  let img_path := config_OUT_DIR +:+ "/" +:+ PyStr.last_segment image_url in
  image <~ Image.get http image_url content_type;
  perform (if Image.truthy image then
             perform open_file open_fails img_path ModeWB;
             Image.write_binary img_path image
           else ret tt);
  ret ("Fetch succeeded: " +:+ image_url).

(** [Image.asyncio_sessions]. *)
Definition asyncio_sessions (sched : list nat) (pages : list task) : M unit :=
  urls <~ Image.listings_async http img_srcs config_URL item pages;
  let tasks := map (fun image_url => aio_process image_url "image") urls in
  results <~ gather sched tasks;
  for_each (fun r => emit (EPut r)) results.

(** The body of the loop over the image URLs in [sync_process]. *)
Definition sync_image (page : task) (image_url : string) : M unit :=
  perform emit (EGet image_url);
  let r := http image_url in
  if status r =? 200 then
    let path := "images/" +:+ PyStr.last_segment image_url in
    perform open_file open_fails path ModeWB;
    perform for_each (fun buf => emit (EWrite path buf)) (reads (body r));
    emit (EPut (str page +:+ " fetch succeeded"))
  else ret tt.

(** The body of the loop over the pages in [sync_process]. *)
Definition sync_page (page : task) : M unit :=
  let listing := url +:+ "p" +:+ str page +:+ "/" +:+ item +:+ ".html" in
  perform emit (EGet listing);
  let res := http listing in
  match img_srcs (body res) with
  | None => raise ParserError
  | Some srcs => for_each (sync_image page) (Image.wanted srcs)
  end.

(** [Image.sync_process]. *)
Definition sync_process (pages : list task) : M unit :=
  for_each sync_page pages.

End Worker.
End ImageDisk.

(** ** The coordinators *)

(** [for _ in range(n)] with an int [n]: no turn at all when [n <= 0]. *)
Definition range_len (n : Z) : nat := Z.to_nat n.

(** [sum(1 for _ in range(n) if 'failed' in result_queue.get())].
    [results] is what the successive [get] calls return; when it is used up
    the next [get] blocks. *)
Fixpoint count_failed (n : nat) (results : list string) : M Z :=
  match n with
  | O => ret 0
  | S n' =>
      match results with
      | [] => blocked
      | r :: results' =>
          perform emit (EResultGet r);
          k <~ count_failed n' results';
          ret ((if PyStr.contains "failed" r then 1 else 0) + k)
      end
  end.

(** The items a trace puts on the task queue, in order. *)
Fixpoint task_puts (tr : list event) : list task :=
  match tr with
  | [] => []
  | ETaskPut t :: tr' => t :: task_puts tr'
  | _ :: tr' => task_puts tr'
  end.

(** The number of [result_queue.get()] calls of a trace that returned. *)
Fixpoint result_gets (tr : list event) : nat :=
  match tr with
  | [] => O
  | EResultGet _ :: tr' => S (result_gets tr')
  | _ :: tr' => result_gets tr'
  end.

Module TickerMain.

(** [if process_count > cpu_count(): process_count = cpu_count()]. *)
Definition effective_process_count (process_count cpu_count : Z) : Z :=
  if process_count >? cpu_count then cpu_count else process_count.

(** The enqueueing loop:
    [for idx, item in enumerate(tickers_list): if idx >= fetch_count: break]. *)
Fixpoint enqueue (idx fetch_count : Z) (tickers_list : list task) : M unit :=
  match tickers_list with
  | [] => ret tt
  | item :: tickers_list' =>
      if idx >=? fetch_count then ret tt
      else
        perform emit (ETaskPut item);
        enqueue (idx + 1) fetch_count tickers_list'
  end.

(** [main] of [ticker.py], from the parsed arguments ([args.count],
    [args.parallel]) and the loaded config.  Returns the two numbers of
    the closing log line: successes and failures. *)
Definition main (fetch_count process_count cpu_count : Z)
    (tickers_list : list task) (results : list string) : M (Z * Z) :=
  let process_count := effective_process_count process_count cpu_count in
  perform for_each (fun _ => emit EStart) (seq 0 (range_len process_count));
  perform enqueue 0 fetch_count tickers_list;
  perform for_each (fun _ => emit (ETaskPut DONE)) (seq 0 (range_len process_count));
  fail_count <~ count_failed (range_len fetch_count) results;
  ret (fetch_count - fail_count, fail_count).

End TickerMain.

Module ImageMain.

(** [if process_count < cpu_count(): process_count = cpu_count()]. *)
Definition effective_process_count (process_count cpu_count : Z) : Z :=
  if process_count <? cpu_count then cpu_count else process_count.

Section Main.

Variable http : string -> response.

(** [int(html.fromstring(doc).xpath('//li[@class="pag-text"]/text()')[0].split()[1])]:
    the page count printed on a listing, or the exception raised on the
    way. *)
Variable pages_on_site : string -> exn + Z.

(** [config['SCRAPER']['URL']] and [config['SCRAPER']['ITEM']]. *)
Variables url item : string.

(** [main] of [image_scraper.py] from its third statement on, given the
    process count and [config['SCRAPER']['AMOUNT_PAGES']].  The two
    statements before it, which parse the command line and read the process
    count off it, are [Cli.image_main] below. *)
Definition main (amount_pages process_count cpu_count : Z)
    (results : list string) : M (Z * Z) :=
  let first := url +:+ "/p1/" +:+ item +:+ ".html" in
  perform emit (EGet first);
  match pages_on_site (body (http first)) with
  | inl ex => raise ex
  | inr amount_pages_on_site =>
      let amount_pages :=
        if amount_pages >? amount_pages_on_site then amount_pages_on_site
        else amount_pages in
      let process_count := effective_process_count process_count cpu_count in
      perform for_each (fun _ => emit EStart) (seq 0 (range_len process_count));
      perform for_each (fun page_number => emit (ETaskPut (TInt (Z.of_nat page_number + 1))))
                       (seq 0 (range_len amount_pages));
      perform for_each (fun _ => emit (ETaskPut DONE)) (seq 0 (range_len process_count));
      fail_count <~ count_failed (range_len amount_pages) results;
      ret (amount_pages - fail_count, fail_count)
  end.

End Main.
End ImageMain.

(** ** Workers sharing the task queue

    The workers are started before anything is put on the queue, and every
    [get] takes the item at the head.  A state of the system is what the
    coordinator has still to put, what is on the queue, and where each
    worker is in its intake loop. *)

Record worker := {
  collecting : bool;      (* still inside [while True] *)
  batch : list task;      (* [tickers] / [pages] so far *)
  sentinels : nat         (* ['done'] items taken off the queue *)
}.

Definition fresh : worker :=
  {| collecting := true; batch := []; sentinels := 0 |}.

(** One turn of the intake loop on the item [t] just taken. *)
Definition intake_turn (t : task) (w : worker) : worker :=
  if is_done t then
    {| collecting := false; batch := batch w; sentinels := S (sentinels w) |}
  else
    {| collecting := true; batch := batch w ++ [t]; sentinels := sentinels w |}.

Record system := {
  pending : list task;
  queue : list task;
  workers : list worker
}.

Inductive step : system -> system -> Prop :=
| step_put t p q ws :
    step {| pending := t :: p; queue := q; workers := ws |}
         {| pending := p; queue := q ++ [t]; workers := ws |}
| step_get i w t p q ws :
    ws !! i = Some w ->
    collecting w = true ->
    step {| pending := p; queue := t :: q; workers := ws |}
         {| pending := p; queue := q; workers := <[i := intake_turn t w]> ws |}.

(** The system as [main] sets it up: [n] workers, the real work, then one
    ['done'] per worker. *)
Definition initial (tasks : list task) (n : nat) : system :=
  {| pending := tasks ++ replicate n DONE;
     queue := [];
     workers := replicate n fresh |}.

(** ** The intake loops on the shared queue

    The same system with the workers given by their own code.  A worker is
    the list of items its [get] calls have returned so far, its inbox, and
    where it stands is what its intake loop ([Ticker.intake] or
    [Image.intake]) does on that inbox: the loop is inside a [get] exactly
    when it ends [Blocked], and only then can the worker take the item at
    the head of the queue. *)

Record pool := {
  to_put : list task;            (* what the coordinator has still to put *)
  on_queue : list task;          (* the task queue *)
  inboxes : list (list task)     (* per worker, the items taken so far *)
}.

Inductive moves (intake : list task -> list task -> M (list task * list task))
  : pool -> pool -> Prop :=
| moves_put t p q ibs :
    moves intake {| to_put := t :: p; on_queue := q; inboxes := ibs |}
                 {| to_put := p; on_queue := q ++ [t]; inboxes := ibs |}
| moves_get i ib t p q ibs :
    ibs !! i = Some ib ->
    result (intake ib []) = Blocked ->
    moves intake {| to_put := p; on_queue := t :: q; inboxes := ibs |}
                 {| to_put := p; on_queue := q; inboxes := <[i := ib ++ [t]]> ibs |}.

(** The pool as [main] sets it up: [n] workers that have taken nothing, the
    real work to put, then one ['done'] per worker. *)
Definition start (tasks : list task) (n : nat) : pool :=
  {| to_put := tasks ++ replicate n DONE;
     on_queue := [];
     inboxes := replicate n [] |}.

(** The loop of a worker with inbox [ib] is over: it took the items of
    [batch], none of them a ['done'], then one ['done'], at which it
    returned [batch] (having acknowledged each of its items), and it took
    nothing after that. *)
Definition left_loop (intake : list task -> list task -> M (list task * list task))
    (ib batch : list task) : Prop :=
  intake ib [] = (replicate (length batch) ETaskDone, Returned (batch, []))
  /\ ib = batch ++ [DONE]
  /\ Forall (fun t => is_done t = false) batch.

(** The loop of a worker with inbox [ib] is inside a [get]: it has taken no
    ['done'] yet. *)
Definition in_loop (intake : list task -> list task -> M (list task * list task))
    (ib : list task) : Prop :=
  result (intake ib []) = Blocked
  /\ Forall (fun t => is_done t = false) ib.

(** The workers whose inbox holds no ['done']. *)
Fixpoint waiting (ibs : list (list task)) : nat :=
  match ibs with
  | [] => 0
  | ib :: ibs' => (if existsb is_done ib then 0 else 1) + waiting ibs'
  end.

(** What the proofs need to know of an intake loop: without a ['done'] it
    ends inside a [get], and it returns at the first ['done']. *)
Definition intake_behaviour
    (intake : list task -> list task -> M (list task * list task)) : Prop :=
  (forall ib, Forall (fun t => is_done t = false) ib ->
     result (intake ib []) = Blocked)
  /\ (forall pre post, Forall (fun t => is_done t = false) pre ->
        intake (pre ++ DONE :: post) []
        = (replicate (length pre) ETaskDone, Returned (pre, post))).

(** The invariant of the pool: what is on its way to the workers is real
    work followed by one ['done'] per waiting worker, and an inbox holds a
    ['done'] only as its last item. *)
Definition pool_inv (n : nat) (s : pool) : Prop :=
  exists rest,
    on_queue s ++ to_put s = rest ++ replicate (waiting (inboxes s)) DONE
    /\ Forall (fun t => is_done t = false) rest
    /\ Forall (fun ib => Forall (fun t => is_done t = false) ib
                         \/ exists b, ib = b ++ [DONE]
                                      /\ Forall (fun t => is_done t = false) b)
              (inboxes s)
    /\ length (inboxes s) = n.

(** A pool of two workers that have taken one ticker each and then their
    ['done']. *)
Definition two_drained : pool :=
  {| to_put := []; on_queue := [];
     inboxes := [[TStr "AAA"; DONE]; [TStr "BBB"; DONE]] |}.

(** ** Vocabulary of the statements *)

(** The paths a trace opens, in order. *)
Fixpoint opens (tr : list event) : list string :=
  match tr with
  | [] => []
  | EOpen p _ :: tr' => p :: opens tr'
  | _ :: tr' => opens tr'
  end.

(** Coroutine by coroutine, [pend] returns the values [vals]. *)
Definition all_return {A} (pend : list (M A)) (vals : list A) : Prop :=
  Forall2 (fun c a => result c = Returned a) pend vals.

Definition not_put (e : event) : Prop := is_put e = false.

(** Closes [Forall not_put tr] for an explicit trace without puts. *)
Ltac no_put_events :=
  repeat first [apply Forall_nil_2 | apply Forall_cons_2; [reflexivity|]].

Definition not_done (t : task) : Prop := is_done t = false.

(** What a worker does with the batch it has collected. *)
Definition ticker_dispatch http base_url out_dir mode sched (tickers : list task) : M unit :=
  if String.eqb mode "async"
  then Ticker.asyncio_sessions http base_url out_dir sched tickers
  else Ticker.sync_process http base_url out_dir tickers.

Definition image_dispatch http img_srcs config_URL config_OUT_DIR url mode item
    sched (pages : list task) : M unit :=
  if String.eqb mode "async"
  then Image.asyncio_sessions http img_srcs config_URL config_OUT_DIR item sched pages
  else Image.sync_process http img_srcs url item pages.

(** ['failed' in r]. *)
Definition mentions_failed (r : string) : Prop := PyStr.contains "failed" r = true.

(** The workers still inside their intake loop. *)
Fixpoint active (ws : list worker) : nat :=
  match ws with
  | [] => 0
  | w :: ws' => (if collecting w then 1 else 0) + active ws'
  end.

(** A worker has no ['done'] in its batch, and has left its loop exactly
    when it has taken a ['done'], which it does at most once. *)
Definition worker_ok (w : worker) : Prop :=
  Forall not_done (batch w)
  /\ sentinels w = (if collecting w then 0 else 1)%nat.

(** What is on its way to the workers is real work followed by one ['done']
    per worker still collecting. *)
Definition protocol_inv (n : nat) (s : system) : Prop :=
  exists rest,
    queue s ++ pending s = rest ++ replicate (active (workers s)) DONE
    /\ Forall not_done rest
    /\ Forall worker_ok (workers s)
    /\ length (workers s) = n.

(** Every step moves one item one stage further. *)
Definition distance (s : system) : nat :=
  2 * length (pending s) + length (queue s).

(** ** Further vocabulary *)

(** The URLs a trace requests, in order. *)
Fixpoint gets (tr : list event) : list string :=
  match tr with
  | [] => []
  | EGet u :: tr' => u :: gets tr'
  | _ :: tr' => gets tr'
  end.

(** The number of [task_done] calls of a trace. *)
Fixpoint acks (tr : list event) : nat :=
  match tr with
  | [] => O
  | ETaskDone :: tr' => S (acks tr')
  | _ :: tr' => acks tr'
  end.

(** The number of worker processes a trace starts. *)
Fixpoint starts (tr : list event) : nat :=
  match tr with
  | [] => O
  | EStart :: tr' => S (starts tr')
  | _ :: tr' => starts tr'
  end.

(** The URL and the file of a ticker, as both modes of the worker build
    them, and the two records a ticker can get. *)
Definition ticker_url (base_url : string) (t : task) : string :=
  base_url +:+ str t.

Definition ticker_file (out_dir : string) (t : task) : string :=
  out_dir +:+ "/" +:+ str t +:+ ".csv".

Definition succeeded (t : task) : string := str t +:+ " fetch succeeded".
Definition failed (t : task) : string := str t +:+ " fetch failed".

(** The ticker is answered with status 200. *)
Definition answered_ok (http : string -> response) (base_url : string) (t : task) : bool :=
  status (http (ticker_url base_url t)) =? 200.

(** The ticker is answered with status 200 and an empty body. *)
Definition answered_empty (http : string -> response) (base_url : string) (t : task) : bool :=
  answered_ok http base_url t && PyStr.is_empty (body (http (ticker_url base_url t))).

(** The image URL is answered with status 200. *)
Definition image_ok (http : string -> response) (image_url : string) : bool :=
  status (http image_url) =? 200.

(** Two events can be performed in either order without a difference to
    the files. *)
Definition commute (e1 e2 : event) : Prop :=
  forall fs, apply_event (apply_event fs e1) e2 = apply_event (apply_event fs e2) e1.

(** What an event appends to which file; [None] for an event that leaves
    the files alone.  Opening with ['a'] is appending nothing.  Opening
    with ['w'] or ['wb'] truncates and is not an append. *)
Definition appended (e : event) : option (string * string) :=
  match e with
  | EOpen p ModeA => Some (p, "")
  | EWrite p d => Some (p, d)
  | _ => None
  end.

Definition truncates (e : event) : bool :=
  match e with
  | EOpen _ ModeW | EOpen _ ModeWB => true
  | _ => false
  end.

(** A computation that returns, or raises [ex] and nothing else, and never
    waits. *)
Definition returns_or_raises {A} (ex : exn) (m : M A) : Prop :=
  match result m with
  | Returned _ => True
  | Raised e => e = ex
  | Blocked => False
  end.

(** The URL of the listing of a page, as both modes of the image worker
    build it from their base URL. *)
Definition listing_url (base item : string) (page : task) : string :=
  base +:+ "p" +:+ str page +:+ "/" +:+ item +:+ ".html".

(** The document the async image worker parses for a listing: the body of
    a 200 answer, and otherwise the marker ['failed']. *)
Definition listing_doc (http : string -> response) (u : string) : string :=
  if status (http u) =? 200 then body (http u) else "failed".

(** The record of an image coroutine. *)
Definition image_record (image_url : string) : string :=
  "Fetch succeeded: " +:+ image_url.

(** The image URLs the sync image worker goes through for a page: the
    wanted [src] values of its listing (none when the parser rejects it). *)
Definition page_images (http : string -> response)
    (img_srcs : string -> option (list string)) (url item : string) (page : task)
    : list string :=
  match img_srcs (body (http (listing_url url item page))) with
  | Some srcs => Image.wanted srcs
  | None => []
  end.

(** How far the real work has been handed out: [taken] is the part of
    [tasks] the workers have taken so far, in queue order, and [rest] is
    still on its way, followed by ['done'] items only. *)
Definition handed_out (tasks : list task) (s : system) : Prop :=
  exists taken rest k,
    tasks = taken ++ rest
    /\ queue s ++ pending s = rest ++ replicate k DONE
    /\ concat (batch <$> workers s) ≡ₚ taken
    /\ Forall (fun w => batch w `sublist_of` taken) (workers s)
    /\ (rest = [] \/ Forall (fun w => collecting w = true) (workers s)).

(** ** The command lines

    [parse_args()] hands back a namespace with one attribute per option,
    named after the long option string.  The values are what the command
    line gave, or the defaults; reading an attribute the parser did not
    define raises [AttributeError]. *)

Module Cli.

Inductive pyval :=
| VStr (s : string)
| VInt (n : Z).

Inductive attribute_error := AttributeError (name : string).

(** [args.<name>]. *)
Definition getattr (args : gmap string pyval) (name : string)
    : attribute_error + pyval :=
  match args !! name with
  | Some v => inr v
  | None => inl (AttributeError name)
  end.

(** [parse_cli_args] of [image_scraper.py]: [--mode] and [--process]. *)
Definition parse_cli_args (mode : string) (process : Z) : gmap string pyval :=
  {[ "mode" := VStr mode; "process" := VInt process ]}.

(** [parse_clargs] of [ticker.py]: [--mode], [--count], [--parallel],
    [--tickerconf] and [--outdir]. *)
Definition parse_clargs (mode : string) (count parallel : Z)
    (tickerconf outdir : string) : gmap string pyval :=
  {[ "mode" := VStr mode; "count" := VInt count; "parallel" := VInt parallel;
     "tickerconf" := VStr tickerconf; "outdir" := VStr outdir ]}.

(** The first statements of [main] of [image_scraper.py]:
    [args = parse_cli_args()] and [process_count = args.parallel]; [rest]
    is the remainder of [main], run with that process count. *)
Definition image_main {A} (mode : string) (process : Z) (rest : pyval -> A)
    : attribute_error + A :=
  let args := parse_cli_args mode process in
  match getattr args "parallel" with
  | inl err => inl err
  | inr process_count => inr (rest process_count)
  end.

(** The first statements of [main] of [ticker.py]:
    [args = parse_clargs()], [fetch_count = args.count] and
    [process_count = args.parallel]; [rest] is the remainder of [main]. *)
Definition ticker_main {A} (mode : string) (count parallel : Z)
    (tickerconf outdir : string) (rest : pyval -> pyval -> A)
    : attribute_error + A :=
  let args := parse_clargs mode count parallel tickerconf outdir in
  match getattr args "count" with
  | inl err => inl err
  | inr fetch_count =>
      match getattr args "parallel" with
      | inl err => inl err
      | inr process_count => inr (rest fetch_count process_count)
      end
  end.

End Cli.

(** ** Sample servers

    Small servers and listings on which the scripts are run below. *)

Module Sample.

(** A ticker endpoint that knows [AAA] and [BBB] and answers 404 for
    anything else. *)
Definition ticker_http (u : string) : response :=
  if String.eqb u "http://x/AAA" then {| status := 200; body := "a1" |}
  else if String.eqb u "http://x/BBB" then {| status := 200; body := "b1" |}
  else {| status := 404; body := "not found" |}.

Definition IMG_A : string := "http://images.stockfreeimages.com/1/a.jpg".
Definition IMG_B : string := "http://images.stockfreeimages.com/2/b.jpg".
Definition IMG_GONE : string := "http://images.stockfreeimages.com/3/gone.jpg".
Definition IMG_FAILED : string := "http://images.stockfreeimages.com/4/failed.jpg".
Definition LOGO : string := "http://s/static/logo.png".

(** An image site with three listing pages: page 1 shows two images and the
    site logo, page 2 shows only the logo, page 3 shows an image that is no
    longer there. *)
Definition image_http (u : string) : response :=
  if String.eqb u "http://s/p1/cat.html" then {| status := 200; body := "listing 1" |}
  else if String.eqb u "http://s/p2/cat.html" then {| status := 200; body := "listing 2" |}
  else if String.eqb u "http://s/p3/cat.html" then {| status := 200; body := "listing 3" |}
  else if String.eqb u IMG_A then {| status := 200; body := "bytes of a" |}
  else if String.eqb u IMG_B then {| status := 200; body := "bytes of b" |}
  else if String.eqb u IMG_FAILED then {| status := 200; body := "bytes of f" |}
  else {| status := 404; body := "not found" |}.

Definition img_srcs (doc : string) : option (list string) :=
  if String.eqb doc "listing 1" then Some [IMG_A; LOGO; IMG_B]
  else if String.eqb doc "listing 2" then Some [LOGO]
  else if String.eqb doc "listing 3" then Some [IMG_GONE]
  else Some [].

(** The image worker of the sample site, with [OUT_DIR] set to ["out"]. *)
Definition image_run (mode : string) (sched : list nat) (inbox : list task) : M (list task) :=
  Image.run image_http img_srcs "http://s/" "out" "http://s/" mode "cat" sched inbox.

(** The ticker worker of the sample endpoint, writing under ["out"]. *)
Definition ticker_run (mode : string) (sched : list nat) (inbox : list task) : M (list task) :=
  Ticker.run ticker_http "http://x/" "out" mode sched inbox.

End Sample.

(** ** More sample servers *)

Module Scenario.

(** The sample ticker endpoint, with one more ticker that is answered with
    status 200 and nothing in the body. *)
Definition ticker_http (u : string) : response :=
  if String.eqb u "http://x/EMPTY" then {| status := 200; body := "" |}
  else Sample.ticker_http u.

(** A parser that rejects the second listing of the sample site. *)
Definition strict_srcs (doc : string) : option (list string) :=
  if String.eqb doc "listing 2" then None else Sample.img_srcs doc.

Definition TWIN_1 : string := "http://images.stockfreeimages.com/1/x.jpg".
Definition TWIN_2 : string := "http://images.stockfreeimages.com/2/x.jpg".

(** Two different images under the same file name. *)
Definition twin_http (u : string) : response :=
  if String.eqb u TWIN_1 then {| status := 200; body := "one" |}
  else if String.eqb u TWIN_2 then {| status := 200; body := "two" |}
  else {| status := 404; body := "not found" |}.

(** One worker that has taken [AAA] and then its ['done']. *)
Definition drained : system :=
  {| pending := []; queue := [];
     workers := [ {| collecting := false; batch := [TStr "AAA"]; sentinels := 1 |} ] |}.

End Scenario.

(** ** Sample disks *)

Module Disk.

(** A disk without the directory [tickerdata], the default of [--outdir]. *)
Definition no_tickerdata (path : string) : bool :=
  PyStr.starts_with "tickerdata/" path.

(** A disk on which the directory [out] itself cannot be opened as a
    file. *)
Definition out_is_directory (path : string) : bool := String.eqb path "out/".

(** A disk on which the directory [images] itself cannot be opened as a
    file. *)
Definition images_is_directory (path : string) : bool := String.eqb path "images/".

(** A connection that delivers a non-empty body in one read. *)
Definition whole (b : string) : list string :=
  if PyStr.is_empty b then [] else [b].

Definition IMG_SLASH : string := "http://images.stockfreeimages.com/dir/".

(** The sample image site, with one more image whose URL ends in a slash. *)
Definition slash_http (u : string) : response :=
  if String.eqb u IMG_SLASH then {| status := 200; body := "bytes of s" |}
  else Sample.image_http u.

(** A first listing that shows that image between the two sample images. *)
Definition slash_srcs (doc : string) : option (list string) :=
  if String.eqb doc "listing 1" then Some [Sample.IMG_A; IMG_SLASH; Sample.IMG_B]
  else Sample.img_srcs doc.

End Disk.

(** * Properties *)

(** ** Strings *)

Lemma append_cons (c : ascii) (s t : string) :
  String c s +:+ t = String c (s +:+ t).
Proof. reflexivity. Qed.

Lemma append_nil_l (s : string) : "" +:+ s = s.
Proof. reflexivity. Qed.

Lemma append_assoc (s t u : string) : (s +:+ t) +:+ u = s +:+ t +:+ u.
Proof.
  induction s as [|c s IH]; [done|].
  by rewrite !append_cons, IH.
Qed.

Lemma starts_with_spec (p s : string) :
  PyStr.starts_with p s = true <-> exists b, s = p +:+ b.
Proof.
  revert s. induction p as [|a p IH]; intros s; simpl.
  - split; [intros _; by exists s | done].
  - destruct s as [|c s].
    + split; [done | intros [b Hb]; discriminate].
    + destruct (Ascii.eqb a c) eqn:Hac.
      * apply Ascii.eqb_eq in Hac as ->. rewrite IH.
        split; intros [b Hb]; exists b; [by rewrite Hb | by injection Hb].
      * apply Ascii.eqb_neq in Hac.
        split; [done | intros [b Hb]; injection Hb; congruence].
Qed.

Lemma contains_spec (needle hay : string) :
  PyStr.contains needle hay = true <-> exists a b, hay = a +:+ needle +:+ b.
Proof.
  split.
  - induction hay as [|c hay IH]; simpl; rewrite orb_true_iff.
    + intros [H|H]; [|done].
      apply starts_with_spec in H as [b Hb]. by exists EmptyString, b.
    + intros [H|H].
      * apply starts_with_spec in H as [b Hb]. by exists EmptyString, b.
      * destruct (IH H) as (a & b & ->). by exists (String c a), b.
  - intros (a & b & ->). induction a as [|c a IH]; simpl.
    + assert (PyStr.starts_with needle (needle +:+ b) = true) as Hs
        by (apply starts_with_spec; eauto).
      destruct (needle +:+ b); simpl; by rewrite Hs.
    + simpl in IH. rewrite IH. apply orb_true_r.
Qed.

Lemma contains_append_l (needle pre s : string) :
  PyStr.contains needle s = true -> PyStr.contains needle (pre +:+ s) = true.
Proof.
  rewrite !contains_spec. intros (a & b & ->).
  exists (pre +:+ a), b. by rewrite append_assoc.
Qed.

Lemma contains_append_r (needle s post : string) :
  PyStr.contains needle s = true -> PyStr.contains needle (s +:+ post) = true.
Proof.
  rewrite !contains_spec. intros (a & b & ->).
  exists a, (b +:+ post). by rewrite !append_assoc.
Qed.

Lemma is_done_true (t : task) : is_done t = true <-> t = DONE.
Proof.
  destruct t as [n|s]; simpl; [done|].
  rewrite String.eqb_eq. unfold DONE. split; congruence.
Qed.

(** ** Computations *)

Lemma bind_returned {A B} (tr : list event) (a : A) (k : A -> M B) :
  bind (tr, Returned a) k = (tr ++ trace (k a), result (k a)).
Proof. unfold bind, trace, result. by destruct (k a). Qed.

Lemma bind_trace_prefix {A B} (m : M A) (k : A -> M B) :
  exists more, trace (bind m k) = trace m ++ more.
Proof.
  destruct m as [tr [a|e|]]; simpl.
  - destruct (k a) as [tr' o]. by exists tr'.
  - exists []. by rewrite app_nil_r.
  - exists []. by rewrite app_nil_r.
Qed.

Lemma puts_app (tr1 tr2 : list event) : puts (tr1 ++ tr2) = puts tr1 ++ puts tr2.
Proof.
  induction tr1 as [|e tr1 IH]; [done|].
  destruct e; simpl; by rewrite ?IH.
Qed.

Lemma puts_map_EPut (rs : list string) : puts (map EPut rs) = rs.
Proof. induction rs; simpl; congruence. Qed.

Lemma puts_nil_Forall (tr : list event) :
  puts tr = [] <-> Forall (fun e => is_put e = false) tr.
Proof.
  induction tr as [|e tr IH]; simpl.
  - split; [by constructor | done].
  - rewrite Forall_cons. destruct e; simpl; try (rewrite IH; tauto).
    split; [done | by intros [? _]].
Qed.

Lemma for_each_cons {A} (body : A -> M unit) (x : A) (xs : list A) :
  for_each body (x :: xs) = bind (body x) (fun _ => for_each body xs).
Proof. reflexivity. Qed.

Lemma for_each_put (rs : list string) :
  for_each (fun r => emit (EPut r)) rs = (map EPut rs, Returned tt).
Proof.
  induction rs as [|r rs IH]; [done|].
  simpl. rewrite IH. done.
Qed.

Lemma for_each_const {A} (e : event) (xs : list A) :
  for_each (fun _ => emit e) xs = (replicate (length xs) e, Returned tt).
Proof.
  induction xs as [|x xs IH]; [done|].
  simpl. rewrite IH. done.
Qed.

Lemma Forall_bind {A B} (P : event -> Prop) (m : M A) (k : A -> M B) :
  Forall P (trace m) -> (forall a, Forall P (trace (k a))) ->
  Forall P (trace (bind m k)).
Proof.
  intros Hm Hk. destruct m as [tr [a|e|]]; simpl in *; try done.
  specialize (Hk a). destruct (k a) as [tr' o]. simpl in *.
  by apply Forall_app.
Qed.

(** ** [gather] *)

Section GatherFacts.
Context {A : Type}.
Implicit Types (pend : list (M A)) (sched : list nat).

Lemma first_raised_none pend vals :
  all_return pend vals -> first_raised pend = None.
Proof.
  induction 1 as [|[tr o] a pend vals Hc _ IH]; [done|].
  simpl in *. subst o. by destruct tr.
Qed.

Lemma finish_all_return pend vals :
  all_return pend vals ->
  finish pend = (concat (trace <$> pend), Returned vals).
Proof.
  induction 1 as [|[tr o] a pend vals Hc _ IH]; [done|].
  simpl in *. subst o. rewrite IH. simpl. by rewrite app_nil_r.
Qed.

Lemma concat_step pend i e later o :
  pend !! i = Some (e :: later, o) ->
  concat (trace <$> pend) ≡ₚ e :: concat (trace <$> <[i := (later, o)]> pend).
Proof.
  revert i. induction pend as [|c pend IH]; intros [|i] Hi; simplify_eq/=.
  - done.
  - rewrite (IH i Hi). by rewrite Permutation_middle.
Qed.

Lemma all_return_step pend vals i tr tr' o :
  all_return pend vals -> pend !! i = Some (tr, o) ->
  all_return (<[i := (tr', o)]> pend) vals.
Proof.
  intros Hall Hi.
  destruct (Forall2_lookup_l _ _ _ _ _ Hall Hi) as (a & Ha & Hr).
  rewrite <- (list_insert_id vals i a Ha).
  by apply Forall2_insert.
Qed.

(** When every coroutine returns, [gather] returns their values in the
    order of the arguments, after all their events, whatever the
    schedule. *)
Lemma gather_all_return sched pend vals :
  all_return pend vals ->
  exists work, gather sched pend = (work, Returned vals)
               /\ work ≡ₚ concat (trace <$> pend).
Proof.
  revert pend. induction sched as [|i sched IH]; intros pend Hall; simpl;
    rewrite (first_raised_none _ _ Hall).
  - exists (concat (trace <$> pend)). by rewrite (finish_all_return _ _ Hall).
  - destruct (pend !! i) as [[[|e later] o]|] eqn:Hi; [by apply IH| |by apply IH].
    destruct (IH _ (all_return_step _ _ _ _ later _ Hall Hi)) as (work & -> & Hw).
    exists (e :: work). split; [done|].
    by rewrite (concat_step _ _ _ _ _ Hi), Hw.
Qed.

Lemma Forall_finish (P : event -> Prop) pend :
  Forall (fun c => Forall P (trace c)) pend -> Forall P (trace (finish pend)).
Proof.
  induction 1 as [|c pend Hc _ IH]; simpl; [done|].
  apply Forall_bind; [done|]. intros a.
  apply Forall_bind; [done|]. by intros rest.
Qed.

(** Whether it returns or raises, [gather] performs only events of its
    coroutines. *)
Lemma Forall_gather (P : event -> Prop) sched pend :
  Forall (fun c => Forall P (trace c)) pend -> Forall P (trace (gather sched pend)).
Proof.
  revert pend. induction sched as [|i sched IH]; intros pend Hall; simpl;
    destruct (first_raised pend); try done.
  - by apply Forall_finish.
  - destruct (pend !! i) as [[[|e later] o]|] eqn:Hi; [by apply IH| |by apply IH].
    pose proof (Forall_lookup_1 _ _ _ _ Hall Hi) as He. simpl in He.
    apply Forall_cons in He as [He Hlater].
    assert (Forall (fun c => Forall P (trace c)) (<[i := (later, o)]> pend)) as Hall'
      by (by apply Forall_insert).
    specialize (IH _ Hall').
    destruct (gather sched (<[i := (later, o)]> pend)) as [tr' o'].
    by constructor.
Qed.

End GatherFacts.

Section GatherInversion.
Context {A : Type}.
Implicit Types (pend : list (M A)) (sched : list nat).

Lemma finish_returned_inv pend tr vals :
  finish pend = (tr, Returned vals) -> tr = concat (trace <$> pend).
Proof.
  revert tr vals. induction pend as [|[ctr o] pend IH]; intros tr vals; simpl.
  - by intros [= <- _].
  - destruct o as [a| |]; [|done..].
    destruct (finish pend) as [tr' [rest| |]]; simpl; [|done..].
    intros [= <- _]. rewrite app_nil_r. by rewrite (IH tr' rest).
Qed.

(** If [gather] returns at all, every event of every coroutine has been
    performed by then. *)
Lemma gather_returned_inv sched pend tr vals :
  gather sched pend = (tr, Returned vals) -> tr ≡ₚ concat (trace <$> pend).
Proof.
  revert pend tr. induction sched as [|i sched IH]; intros pend tr; simpl;
    destruct (first_raised pend); try done.
  - by intros ->%finish_returned_inv.
  - destruct (pend !! i) as [[[|e later] o]|] eqn:Hi; [by apply IH| |by apply IH].
    destruct (gather sched (<[i := (later, o)]> pend)) as [tr' o'] eqn:Hg.
    simpl. intros [= <- ->].
    by rewrite (concat_step _ _ _ _ _ Hi), (IH _ _ Hg).
Qed.

End GatherInversion.

(** ** The ticker worker *)

Section TickerFacts.
Variable http : string -> response.
Variables base_url out_dir : string.

Local Abbreviation aio_process := (Ticker.aio_process http base_url out_dir).
Local Abbreviation asyncio_sessions := (Ticker.asyncio_sessions http base_url out_dir).
Local Abbreviation sync_process := (Ticker.sync_process http base_url out_dir).
Local Abbreviation sync_one := (Ticker.sync_one http base_url out_dir).

(** A ticker coroutine always returns a record, and puts nothing itself. *)
Lemma ticker_aio_process_returns (t : task) :
  exists r, result (aio_process t) = Returned r
            /\ Forall not_put (trace (aio_process t)).
Proof.
  unfold Ticker.aio_process, Ticker.get. simpl.
  destruct (status (http (base_url +:+ str t)) =? 200); simpl.
  - destruct (body (http (base_url +:+ str t))); simpl;
      eexists; (split; [reflexivity | no_put_events]).
  - eexists; (split; [reflexivity | no_put_events]).
Qed.

Lemma ticker_coroutines_return (tickers : list task) :
  exists rs, all_return (map aio_process tickers) rs.
Proof.
  induction tickers as [|t tickers [rs IH]]; [exists []; constructor|].
  destruct (ticker_aio_process_returns t) as (r & Hr & _).
  exists (r :: rs). by constructor.
Qed.

Lemma ticker_coroutines_no_put (tickers : list task) :
  Forall (fun c => Forall not_put (trace c)) (map aio_process tickers).
Proof.
  apply Forall_map, Forall_forall. intros t _.
  by destruct (ticker_aio_process_returns t) as (r & _ & H).
Qed.

(** The async session of a ticker worker: the coroutines' events in some
    order, then one put per ticker. *)
Lemma ticker_asyncio_sessions_shape (sched : list nat) (tickers : list task) :
  exists work rs,
    asyncio_sessions sched tickers = (work ++ map EPut rs, Returned tt)
    /\ work ≡ₚ concat (trace <$> map aio_process tickers)
    /\ puts work = []
    /\ all_return (map aio_process tickers) rs.
Proof.
  destruct (ticker_coroutines_return tickers) as [rs Hrs].
  destruct (gather_all_return sched _ _ Hrs) as (work & Hg & Hw).
  exists work, rs. repeat split; [|done| |done].
  - unfold Ticker.asyncio_sessions. rewrite Hg, bind_returned.
    by rewrite for_each_put.
  - apply puts_nil_Forall.
    pose proof (Forall_gather not_put sched _ (ticker_coroutines_no_put tickers)) as H.
    by rewrite Hg in H.
Qed.

(** One turn of the sync loop puts exactly one record. *)
Lemma ticker_sync_one_puts (t : task) :
  exists r, puts (trace (sync_one t)) = [r] /\ result (sync_one t) = Returned tt.
Proof.
  unfold Ticker.sync_one. simpl.
  destruct (status (http (base_url +:+ str t)) =? 200); simpl; eauto.
Qed.

Lemma ticker_sync_process_puts (tickers : list task) :
  length (puts (trace (sync_process tickers))) = length tickers
  /\ result (sync_process tickers) = Returned tt.
Proof.
  induction tickers as [|t tickers [IHl IHr]]; [done|].
  unfold Ticker.sync_process in *. rewrite for_each_cons.
  destruct (ticker_sync_one_puts t) as (r & Hp & Hr).
  destruct (sync_one t) as [tr o]. simpl in Hp, Hr. subst o.
  rewrite bind_returned. simpl. rewrite puts_app, Hp, IHr. simpl.
  by rewrite IHl.
Qed.

Lemma ticker_asyncio_sessions_puts (sched : list nat) (tickers : list task) :
  length (puts (trace (asyncio_sessions sched tickers))) = length tickers
  /\ result (asyncio_sessions sched tickers) = Returned tt.
Proof.
  destruct (ticker_asyncio_sessions_shape sched tickers) as (work & rs & -> & _ & Hp & Hrs).
  simpl. rewrite puts_app, Hp, puts_map_EPut. simpl. split; [|done].
  apply Forall2_length in Hrs. by rewrite <- Hrs, length_map.
Qed.

End TickerFacts.

(** ** The image worker *)

Section ImageFacts.
Variable http : string -> response.
Variable img_srcs : string -> option (list string).
Variables config_URL config_OUT_DIR url item : string.

Local Abbreviation aio_process := (Image.aio_process http config_OUT_DIR).
Local Abbreviation listings_async := (Image.listings_async http img_srcs config_URL item).
Local Abbreviation asyncio_sessions :=
  (Image.asyncio_sessions http img_srcs config_URL config_OUT_DIR item).

Lemma image_get_no_put (u content_type : string) :
  Forall not_put (trace (Image.get http u content_type)).
Proof.
  unfold Image.get. simpl.
  destruct (status (http u) =? 200); simpl; [|no_put_events].
  destruct (String.eqb content_type "text"); no_put_events.
Qed.

(** An image coroutine puts nothing itself, however it ends. *)
Lemma image_aio_process_no_put (image_url content_type : string) :
  Forall not_put (trace (aio_process image_url content_type)).
Proof.
  unfold Image.aio_process.
  apply Forall_bind; [apply image_get_no_put|]. intros image.
  apply Forall_bind; [|intros _; no_put_events].
  destruct (Image.truthy image); [|no_put_events].
  apply Forall_bind; [no_put_events|]. intros _.
  destruct image; no_put_events.
Qed.

Lemma image_listings_no_put (pages : list task) :
  Forall not_put (trace (listings_async pages)).
Proof.
  induction pages as [|page pages IH]; simpl; [no_put_events|].
  apply Forall_bind.
  - unfold Image.listing_async.
    apply Forall_bind; [apply image_get_no_put|]. intros response.
    destruct (img_srcs _); no_put_events.
  - intros urls. apply Forall_bind; [done|]. intros more. no_put_events.
Qed.

(** The async session of an image worker: listing requests and coroutine
    events, then the puts.  When [gather] does not return there is no put
    at all. *)
Lemma image_asyncio_sessions_shape (sched : list nat) (pages : list task) :
  exists work reports,
    trace (asyncio_sessions sched pages) = work ++ map EPut reports
    /\ puts work = []
    /\ (reports = []
        \/ exists urls,
             result (listings_async pages) = Returned urls
             /\ concat (trace <$> map (fun u => aio_process u "image") urls) ⊆+ work).
Proof.
  unfold Image.asyncio_sessions.
  pose proof (image_listings_no_put pages) as Hl.
  destruct (listings_async pages) as [ltr [urls| |]]; simpl in Hl.
  - rewrite bind_returned.
    assert (Forall (fun c => Forall not_put (trace c))
              (map (fun u => aio_process u "image") urls)) as Hc.
    { apply Forall_map, Forall_forall. intros u _. apply image_aio_process_no_put. }
    pose proof (Forall_gather not_put sched _ Hc) as Hg.
    destruct (gather sched _) as [gtr [results| |]] eqn:Hgather; simpl in Hg.
    + exists (ltr ++ gtr), results. rewrite bind_returned, for_each_put. simpl.
      split; [by rewrite app_assoc|].
      split; [apply puts_nil_Forall; by apply Forall_app|].
      right. exists urls. split; [done|].
      rewrite <- (gather_returned_inv _ _ _ _ Hgather).
      by apply submseteq_inserts_l.
    + exists (ltr ++ gtr), []. simpl. rewrite app_nil_r.
      split; [done|]. split; [|by left].
      apply puts_nil_Forall. by apply Forall_app.
    + exists (ltr ++ gtr), []. simpl. rewrite app_nil_r.
      split; [done|]. split; [|by left].
      apply puts_nil_Forall. by apply Forall_app.
  - exists ltr, []. simpl. rewrite app_nil_r.
    split; [done|]. split; [by apply puts_nil_Forall | by left].
  - exists ltr, []. simpl. rewrite app_nil_r.
    split; [done|]. split; [by apply puts_nil_Forall | by left].
Qed.

End ImageFacts.

(** C7.  In async mode a worker puts its first status record only when every
    coroutine of its batch has run to its end: the events of the session are
    the fetches and file writes of the whole batch ([work], which contains
    no put and contains every event of every coroutine), followed by the
    puts ([reports]).  For the ticker worker this holds for every schedule
    of the event loop; for the image worker either nothing is put at all
    (a listing or a coroutine raised) or the same holds. *)
Theorem async_results_emitted_after_batch :
  (forall http base_url out_dir sched tickers,
     exists work reports,
       trace (Ticker.asyncio_sessions http base_url out_dir sched tickers)
         = work ++ map EPut reports
       /\ puts work = []
       /\ length reports = length tickers
       /\ work ≡ₚ concat (trace <$> map (Ticker.aio_process http base_url out_dir) tickers))
  /\
  (forall http img_srcs config_URL config_OUT_DIR item sched pages,
     exists work reports,
       trace (Image.asyncio_sessions http img_srcs config_URL config_OUT_DIR item sched pages)
         = work ++ map EPut reports
       /\ puts work = []
       /\ (reports = []
           \/ exists urls,
                result (Image.listings_async http img_srcs config_URL item pages)
                  = Returned urls
                /\ concat (trace <$> map (fun u => Image.aio_process http config_OUT_DIR u "image") urls)
                     ⊆+ work)).
Proof.
  split.
  - intros http base_url out_dir sched tickers.
    destruct (ticker_asyncio_sessions_shape http base_url out_dir sched tickers)
      as (work & rs & Heq & Hperm & Hputs & Hrs).
    exists work, rs. rewrite Heq. repeat split; try done.
    apply Forall2_length in Hrs. by rewrite <- Hrs, length_map.
  - intros. apply image_asyncio_sessions_shape.
Qed.

(** ** The intake loop *)

Lemma ticker_intake_stops (pre post acc : list task) :
  Forall not_done pre ->
  Ticker.intake (pre ++ DONE :: post) acc
  = (replicate (length pre) ETaskDone, Returned (acc ++ pre, post)).
Proof.
  revert acc. induction pre as [|t pre IH]; intros acc Hpre; simpl.
  - by rewrite app_nil_r.
  - apply Forall_cons in Hpre as [Ht Hpre]. unfold not_done in Ht. rewrite Ht.
    rewrite (IH _ Hpre). simpl. by rewrite <- app_assoc.
Qed.

Lemma image_intake_stops (pre post acc : list task) :
  Forall not_done pre ->
  Image.intake (pre ++ DONE :: post) acc
  = (replicate (length pre) ETaskDone, Returned (acc ++ pre, post)).
Proof.
  revert acc. induction pre as [|t pre IH]; intros acc Hpre; simpl.
  - by rewrite app_nil_r.
  - apply Forall_cons in Hpre as [Ht Hpre]. unfold not_done in Ht. rewrite Ht.
    rewrite (IH _ Hpre). simpl. by rewrite <- app_assoc.
Qed.

(** Without a ['done'] in its inbox a worker never leaves the intake loop. *)
Lemma ticker_intake_blocks (inbox acc : list task) :
  Forall not_done inbox -> result (Ticker.intake inbox acc) = Blocked.
Proof.
  revert acc. induction inbox as [|t inbox IH]; intros acc Hin; simpl; [done|].
  apply Forall_cons in Hin as [Ht Hin]. unfold not_done in Ht. rewrite Ht.
  specialize (IH (acc ++ [t]) Hin).
  destruct (Ticker.intake inbox (acc ++ [t])) as [tr o]. simpl in *. by subst o.
Qed.

(** C9.  A work item equal to the string ['done'] ends the intake loop of the
    worker that takes it, in both scripts: with [pre] the items before it
    and [post] whatever comes after it in the worker's inbox, the worker
    acknowledges and processes exactly [pre], and returns leaving [post]
    unread.  Nothing is fetched or put for the ['done'] item or for [post]:
    the events of the run do not depend on [post]. *)
Theorem done_item_ends_intake
    (http : string -> response) (img_srcs : string -> option (list string))
    (base_url out_dir config_URL config_OUT_DIR url mode item : string)
    (sched : list nat) (pre post : list task) :
  Forall not_done pre ->
  Ticker.intake (pre ++ TStr "done" :: post) []
    = (replicate (length pre) ETaskDone, Returned (pre, post))
  /\ Ticker.run http base_url out_dir mode sched (pre ++ TStr "done" :: post)
     = (perform for_each (fun _ => emit ETaskDone) pre;
        perform ticker_dispatch http base_url out_dir mode sched pre;
        perform emit ETaskDone;
        ret post)
  /\ Image.intake (pre ++ TStr "done" :: post) []
     = (replicate (length pre) ETaskDone, Returned (pre, post))
  /\ Image.run http img_srcs config_URL config_OUT_DIR url mode item sched
       (pre ++ TStr "done" :: post)
     = (perform for_each (fun _ => emit ETaskDone) pre;
        perform image_dispatch http img_srcs config_URL config_OUT_DIR url mode item sched pre;
        perform emit ETaskDone;
        ret post)
  /\ trace (Ticker.run http base_url out_dir mode sched (pre ++ TStr "done" :: post))
     = trace (Ticker.run http base_url out_dir mode sched (pre ++ [TStr "done"]))
  /\ trace (Image.run http img_srcs config_URL config_OUT_DIR url mode item sched
              (pre ++ TStr "done" :: post))
     = trace (Image.run http img_srcs config_URL config_OUT_DIR url mode item sched
                (pre ++ [TStr "done"])).
Proof.
  intros Hpre.
  assert (forall post',
    Ticker.run http base_url out_dir mode sched (pre ++ TStr "done" :: post')
    = (perform for_each (fun _ => emit ETaskDone) pre;
       perform ticker_dispatch http base_url out_dir mode sched pre;
       perform emit ETaskDone;
       ret post')) as Ht.
  { intros post'. unfold Ticker.run. change (TStr "done") with DONE.
    rewrite (ticker_intake_stops pre post' [] Hpre), for_each_const.
    by rewrite !bind_returned. }
  assert (forall post',
    Image.run http img_srcs config_URL config_OUT_DIR url mode item sched
      (pre ++ TStr "done" :: post')
    = (perform for_each (fun _ => emit ETaskDone) pre;
       perform image_dispatch http img_srcs config_URL config_OUT_DIR url mode item sched pre;
       perform emit ETaskDone;
       ret post')) as Hi.
  { intros post'. unfold Image.run. change (TStr "done") with DONE.
    rewrite (image_intake_stops pre post' [] Hpre), for_each_const.
    by rewrite !bind_returned. }
  split; [exact (ticker_intake_stops pre post [] Hpre)|].
  split; [apply Ht|].
  split; [exact (image_intake_stops pre post [] Hpre)|].
  split; [apply Hi|].
  rewrite !Ht, !Hi, for_each_const, !bind_returned.
  split.
  - destruct (ticker_dispatch _ _ _ _ _ _) as [tr [[]| |]]; done.
  - destruct (image_dispatch _ _ _ _ _ _ _ _ _) as [tr [[]| |]]; done.
Qed.

(** On the sample endpoint: a ticker list [AAA; done; BBB] handed to one
    worker is processed as if it ended after [AAA]. *)
Lemma done_item_ends_intake_witness :
  Forall not_done [TStr "AAA"]
  /\ Ticker.intake ([TStr "AAA"] ++ TStr "done" :: [TStr "BBB"]) []
     = (replicate (length [TStr "AAA"]) ETaskDone, Returned ([TStr "AAA"], [TStr "BBB"]))
  /\ trace (Ticker.run Sample.ticker_http "http://x/" "out" "sync" []
              ([TStr "AAA"] ++ TStr "done" :: [TStr "BBB"]))
     = trace (Ticker.run Sample.ticker_http "http://x/" "out" "sync" []
                ([TStr "AAA"] ++ [TStr "done"])).
Proof.
  assert (Forall not_done [TStr "AAA"]) as Hpre.
  { apply Forall_cons_2; [reflexivity | apply Forall_nil_2]. }
  split; [exact Hpre|].
  destruct (done_item_ends_intake Sample.ticker_http Sample.img_srcs
              "http://x/" "out" "http://s/" "out" "http://s/" "sync" "cat"
              [] [TStr "AAA"] [TStr "BBB"] Hpre)
    as (Hintake & _ & _ & _ & Htrace & _).
  split; [exact Hintake | exact Htrace].
Defined.

(** ** The tally *)

Lemma count_failed_enough (n : nat) (results : list string) :
  (n <= length results)%nat ->
  count_failed n results
  = (map EResultGet (take n results),
     Returned (Z.of_nat (length (filter mentions_failed (take n results))))).
Proof.
  revert results. induction n as [|n IH]; intros results Hn; [done|].
  destruct results as [|r results]; simpl in Hn; [lia|].
  simpl. rewrite (IH results) by lia. simpl.
  rewrite app_nil_r, filter_cons.
  destruct (decide (mentions_failed r)) as [Hr|Hr]; unfold mentions_failed in Hr.
  - rewrite Hr. do 2 f_equal. simpl. lia.
  - apply not_true_is_false in Hr. by rewrite Hr.
Qed.

Lemma count_failed_short (n : nat) (results : list string) :
  (length results < n)%nat ->
  count_failed n results = (map EResultGet results, Blocked).
Proof.
  revert results. induction n as [|n IH]; intros results Hn; [lia|].
  destruct results as [|r results]; [done|].
  simpl in Hn. simpl. rewrite (IH results) by lia. done.
Qed.

Lemma image_aio_process_record http config_OUT_DIR image_url content_type r :
  result (Image.aio_process http config_OUT_DIR image_url content_type) = Returned r ->
  r = "Fetch succeeded: " +:+ image_url.
Proof.
  unfold Image.aio_process, Image.get. simpl.
  destruct (status (http image_url) =? 200); simpl.
  - destruct (String.eqb content_type "text"); simpl;
      destruct (body (http image_url)); simpl; congruence.
  - congruence.
Qed.

(** C10.  The coordinator counts a record as a failure exactly when the
    string ['failed'] occurs somewhere in it: draining [n] records gives the
    number of those that contain it.  So the record of an image coroutine
    that returned, ['Fetch succeeded: <image_url>'], is counted as a failure
    when the URL itself contains ['failed']. *)
Theorem failure_is_substring_match
    (http : string -> response) (config_OUT_DIR image_url : string)
    (n : nat) (results : list string) :
  (n <= length results)%nat ->
  PyStr.contains "failed" image_url = true ->
  result (count_failed n results)
    = Returned (Z.of_nat (length (filter mentions_failed (take n results))))
  /\ (forall r, mentions_failed r <-> exists a b, r = a +:+ "failed" +:+ b)
  /\ (forall r,
        result (Image.aio_process http config_OUT_DIR image_url "image") = Returned r ->
        r = "Fetch succeeded: " +:+ image_url
        /\ result (count_failed 1 [r]) = Returned 1).
Proof.
  intros Hn Hurl. split; [by rewrite count_failed_enough|].
  split; [intros r; apply contains_spec|].
  intros r Hr. apply image_aio_process_record in Hr as ->. split; [done|].
  pose proof (contains_append_l "failed" "Fetch succeeded: " _ Hurl) as Hrec.
  rewrite count_failed_enough by (simpl; lia).
  change (take 1 [?r]) with [r]. rewrite filter_cons, decide_True by exact Hrec.
  done.
Qed.

(** On the sample site: the record of the image [.../failed.jpg], fetched
    with status 200, counts as a failure. *)
Lemma failure_is_substring_match_witness :
  (1 <= length ["Fetch succeeded: " +:+ Sample.IMG_FAILED])%nat
  /\ PyStr.contains "failed" Sample.IMG_FAILED = true
  /\ result (Image.aio_process Sample.image_http "out" Sample.IMG_FAILED "image")
     = Returned ("Fetch succeeded: " +:+ Sample.IMG_FAILED)
  /\ result (count_failed 1 ["Fetch succeeded: " +:+ Sample.IMG_FAILED]) = Returned 1.
Proof.
  assert (1 <= length ["Fetch succeeded: " +:+ Sample.IMG_FAILED])%nat as Hn
    by (simpl; lia).
  assert (PyStr.contains "failed" Sample.IMG_FAILED = true) as Hurl
    by (vm_compute; reflexivity).
  assert (result (Image.aio_process Sample.image_http "out" Sample.IMG_FAILED "image")
          = Returned ("Fetch succeeded: " +:+ Sample.IMG_FAILED)) as Hret
    by (vm_compute; reflexivity).
  split; [exact Hn|]. split; [exact Hurl|]. split; [exact Hret|].
  destruct (failure_is_substring_match Sample.image_http "out" Sample.IMG_FAILED
              1 ["Fetch succeeded: " +:+ Sample.IMG_FAILED] Hn Hurl)
    as (_ & _ & Hrec).
  exact (proj2 (Hrec _ Hret)).
Defined.

(** ** Worker counts *)

(** C6.  The two scripts clamp the requested process count in opposite
    directions: the image script takes the larger of the request and the
    core count, so it never runs fewer workers than cores; the ticker script
    takes the smaller, so it never runs more workers than cores. *)
Theorem process_count_clamps (process_count cpu_count : Z) :
  ImageMain.effective_process_count process_count cpu_count
    = Z.max process_count cpu_count
  /\ cpu_count <= ImageMain.effective_process_count process_count cpu_count
  /\ TickerMain.effective_process_count process_count cpu_count
     = Z.min process_count cpu_count
  /\ TickerMain.effective_process_count process_count cpu_count <= cpu_count.
Proof.
  unfold ImageMain.effective_process_count, TickerMain.effective_process_count.
  destruct (Z.ltb_spec process_count cpu_count);
    destruct (Z.gtb_spec process_count cpu_count); lia.
Qed.

(** ** The sentinel protocol *)

Lemma active_replicate_fresh (n : nat) : active (replicate n fresh) = n.
Proof. induction n; simpl; congruence. Qed.

Lemma active_insert (ws : list worker) (i : nat) (w w' : worker) :
  ws !! i = Some w ->
  (active (<[i := w']> ws) + (if collecting w then 1 else 0)
   = active ws + (if collecting w' then 1 else 0))%nat.
Proof.
  revert i. induction ws as [|v ws IH]; intros [|i] Hi; simplify_eq/=.
  - lia.
  - specialize (IH i Hi). lia.
Qed.

Lemma active_zero (ws : list worker) :
  active ws = 0%nat -> Forall (fun w => collecting w = false) ws.
Proof.
  induction ws as [|w ws IH]; simpl; [by constructor|].
  destruct (collecting w) eqn:Hw; [lia|]. intros H. constructor; auto.
Qed.

Lemma active_pos (ws : list worker) :
  active ws <> 0%nat -> exists i w, ws !! i = Some w /\ collecting w = true.
Proof.
  induction ws as [|w ws IH]; simpl; [done|].
  destruct (collecting w) eqn:Hw.
  - intros _. by exists 0%nat, w.
  - intros H. destruct (IH H) as (i & v & Hi & Hv). by exists (S i), v.
Qed.

Lemma protocol_inv_initial (tasks : list task) (n : nat) :
  Forall not_done tasks -> protocol_inv n (initial tasks n).
Proof.
  intros Htasks. exists tasks. simpl. rewrite active_replicate_fresh.
  repeat split; [done| |by rewrite length_replicate].
  apply Forall_replicate. split; [constructor | done].
Qed.

Lemma protocol_inv_step (n : nat) (s s' : system) :
  protocol_inv n s -> step s s' -> protocol_inv n s'.
Proof.
  intros (rest & Hstream & Hrest & Hws & Hlen) Hstep.
  destruct Hstep as [t p q ws | i w t p q ws Hi Hw]; simpl in *.
  - exists rest. simpl. by rewrite <- app_assoc.
  - pose proof (Forall_lookup_1 _ _ _ _ Hws Hi) as [Hbatch Hsent].
    pose proof (active_insert ws i w (intake_turn t w) Hi) as Hact.
    rewrite Hw in Hact, Hsent.
    destruct rest as [|r rest]; simpl in Hstream.
    + destruct (active ws) as [|k] eqn:Hk; simpl in Hstream; [done|].
      injection Hstream as -> Hqp.
      unfold intake_turn in *. simpl in *.
      exists []. repeat split; simpl.
      * rewrite Hqp. f_equal. lia.
      * constructor.
      * apply Forall_insert; [done|]. split; simpl; [done | by rewrite Hsent].
      * by rewrite length_insert.
    + injection Hstream as -> Hqp. apply Forall_cons in Hrest as [Hr Hrest].
      unfold intake_turn in *. unfold not_done in Hr. rewrite Hr in *. simpl in *.
      exists rest. repeat split; simpl.
      * rewrite Hqp. do 2 f_equal. lia.
      * done.
      * apply Forall_insert; [done|]. split; simpl; [|done].
        apply Forall_app. split; [done | by repeat constructor].
      * by rewrite length_insert.
Qed.

Lemma protocol_inv_reachable (tasks : list task) (n : nat) (s : system) :
  Forall not_done tasks -> rtc step (initial tasks n) s -> protocol_inv n s.
Proof.
  intros Htasks Hrtc.
  assert (protocol_inv n (initial tasks n)) as H0 by by apply protocol_inv_initial.
  induction Hrtc as [|s1 s2 s3 Hstep _ IH]; [done|].
  apply IH. by apply (protocol_inv_step n s1).
Qed.

Lemma protocol_inv_final (n : nat) (s : system) :
  protocol_inv n s -> (forall s', ~ step s s') ->
  Forall (fun w => collecting w = false /\ sentinels w = 1%nat) (workers s)
  /\ pending s = [] /\ Forall not_done (queue s).
Proof.
  intros (rest & Hstream & Hrest & Hws & Hlen) Hnf.
  destruct s as [p q ws]. simpl in *.
  destruct p as [|t p]; [|by destruct (Hnf _ (step_put t p q ws))].
  rewrite app_nil_r in Hstream.
  assert (active ws = 0%nat) as Hact.
  { destruct q as [|t q].
    - symmetry in Hstream. apply app_eq_nil in Hstream as [_ Hrep].
      by destruct (active ws).
    - destruct (decide (active ws = 0%nat)) as [|Hpos]; [done|].
      destruct (active_pos ws Hpos) as (i & w & Hi & Hw).
      by destruct (Hnf _ (step_get i w t [] q ws Hi Hw)). }
  rewrite Hact in Hstream. simpl in Hstream. rewrite app_nil_r in Hstream.
  subst q. repeat split; [|done].
  apply active_zero in Hact.
  apply Forall_forall. intros w Hin.
  pose proof (proj1 (Forall_forall _ _) Hact w Hin) as Hc.
  pose proof (proj1 (Forall_forall _ _) Hws w Hin) as [_ Hs].
  by rewrite Hc in Hs.
Qed.

Lemma step_distance (s s' : system) :
  step s s' -> (S (distance s') = distance s)%nat.
Proof.
  intros [t p q ws | i w t p q ws Hi Hw]; unfold distance; simpl.
  - rewrite length_app. simpl. lia.
  - lia.
Qed.

Lemma nsteps_distance (k : nat) (s s' : system) :
  nsteps step k s s' -> (k + distance s' = distance s)%nat.
Proof.
  induction 1 as [|k s1 s2 s3 Hstep _ IH]; [done|].
  apply step_distance in Hstep. lia.
Qed.

(** The step model performs the loop of [intake]: taking the items of an
    inbox one by one leaves a worker with the batch [intake] returns. *)
Lemma intake_turn_agrees (pre post acc : list task) :
  Forall not_done pre ->
  foldl (fun w t => intake_turn t w)
        {| collecting := true; batch := acc; sentinels := 0 |} (pre ++ [DONE])
  = {| collecting := false; batch := acc ++ pre; sentinels := 1 |}
  /\ result (Ticker.intake (pre ++ DONE :: post) acc) = Returned (acc ++ pre, post)
  /\ result (Image.intake (pre ++ DONE :: post) acc) = Returned (acc ++ pre, post).
Proof.
  intros Hpre. split.
  - revert acc. induction Hpre as [|t pre Ht _ IH]; intros acc; simpl.
    + by rewrite app_nil_r.
    + unfold intake_turn at 2. unfold not_done in Ht. rewrite Ht. simpl.
      rewrite IH. by rewrite <- app_assoc.
  - by rewrite ticker_intake_stops, image_intake_stops.
Qed.

(** The same protocol on the step model: no batch holds a ['done'], a worker
    has left its loop exactly when it has taken one, runs are bounded, and
    in the end every worker has taken exactly one ['done']. *)
Lemma step_model_sentinels (tasks : list task) (n : nat) :
  Forall not_done tasks ->
  (forall s, rtc step (initial tasks n) s ->
     length (workers s) = n /\ Forall worker_ok (workers s))
  /\ (forall s, rtc step (initial tasks n) s -> (forall s', ~ step s s') ->
        Forall (fun w => collecting w = false /\ sentinels w = 1%nat) (workers s)
        /\ pending s = [] /\ Forall not_done (queue s))
  /\ (forall k s, nsteps step k (initial tasks n) s ->
        (k <= 2 * (length tasks + n))%nat).
Proof.
  intros Htasks. split; [|split].
  - intros s Hs.
    destruct (protocol_inv_reachable tasks n s Htasks Hs) as (rest & _ & _ & Hws & Hlen).
    done.
  - intros s Hs Hnf.
    apply (protocol_inv_final n); [|done].
    by apply (protocol_inv_reachable tasks).
  - intros k s Hk. apply nsteps_distance in Hk.
    unfold distance, initial in Hk. simpl in Hk.
    rewrite length_app, length_replicate in Hk. lia.
Qed.

(** ** The sentinel protocol on the workers' own loops *)

Lemma image_intake_blocks (inbox acc : list task) :
  Forall not_done inbox -> result (Image.intake inbox acc) = Blocked.
Proof.
  revert acc. induction inbox as [|t inbox IH]; intros acc Hin; simpl; [done|].
  apply Forall_cons in Hin as [Ht Hin]. unfold not_done in Ht. rewrite Ht.
  specialize (IH (acc ++ [t]) Hin).
  destruct (Image.intake inbox (acc ++ [t])) as [tr o]. simpl in *. by subst o.
Qed.

Lemma ticker_intake_behaviour : intake_behaviour Ticker.intake.
Proof.
  split.
  - intros ib Hib. by apply ticker_intake_blocks.
  - intros pre post Hpre. by rewrite (ticker_intake_stops pre post [] Hpre).
Qed.

Lemma image_intake_behaviour : intake_behaviour Image.intake.
Proof.
  split.
  - intros ib Hib. by apply image_intake_blocks.
  - intros pre post Hpre. by rewrite (image_intake_stops pre post [] Hpre).
Qed.

Lemma existsb_done_false (ib : list task) :
  existsb is_done ib = false <-> Forall not_done ib.
Proof.
  induction ib as [|t ib IH]; simpl.
  - split; [by constructor | done].
  - rewrite orb_false_iff, Forall_cons, IH. done.
Qed.

(** An inbox holds no ['done'], or splits at its first ['done']. *)
Lemma first_done_split (ib : list task) :
  Forall not_done ib
  \/ exists pre post, ib = pre ++ DONE :: post /\ Forall not_done pre.
Proof.
  induction ib as [|t ib IH]; [left; constructor|].
  destruct (is_done t) eqn:Ht.
  - right. apply is_done_true in Ht as ->. exists [], ib. split; [done | constructor].
  - destruct IH as [Hib|(pre & post & -> & Hpre)].
    + left. by constructor.
    + right. exists (t :: pre), post. split; [done | by constructor].
Qed.

Section PoolFacts.
Variable intake : list task -> list task -> M (list task * list task).
Hypothesis Hintake : intake_behaviour intake.

(** A loop that is inside a [get] has taken no ['done']. *)
Lemma blocked_no_done (ib : list task) :
  result (intake ib []) = Blocked -> Forall not_done ib.
Proof.
  intros Hb. destruct (first_done_split ib) as [|(pre & post & -> & Hpre)]; [done|].
  destruct Hintake as [_ Hstop]. rewrite (Hstop pre post Hpre) in Hb. done.
Qed.

Lemma waiting_replicate_nil (n : nat) : waiting (replicate n []) = n.
Proof. induction n; simpl; congruence. Qed.

Lemma waiting_insert (ibs : list (list task)) (i : nat) (ib ib' : list task) :
  ibs !! i = Some ib ->
  (waiting (<[i := ib']> ibs) + (if existsb is_done ib then 0 else 1)
   = waiting ibs + (if existsb is_done ib' then 0 else 1))%nat.
Proof.
  revert i. induction ibs as [|v ibs IH]; intros [|i] Hi; simplify_eq/=.
  - lia.
  - specialize (IH i Hi). lia.
Qed.

Lemma waiting_zero (ibs : list (list task)) :
  waiting ibs = 0%nat -> Forall (fun ib => existsb is_done ib = true) ibs.
Proof.
  induction ibs as [|ib ibs IH]; simpl; [by constructor|].
  destruct (existsb is_done ib) eqn:Hib; [|lia]. intros H. constructor; auto.
Qed.

Lemma waiting_pos (ibs : list (list task)) :
  waiting ibs <> 0%nat ->
  exists i ib, ibs !! i = Some ib /\ existsb is_done ib = false.
Proof.
  induction ibs as [|ib ibs IH]; simpl; [done|].
  destruct (existsb is_done ib) eqn:Hib.
  - intros H. destruct (IH H) as (i & v & Hi & Hv). by exists (S i), v.
  - intros _. by exists 0%nat, ib.
Qed.

Lemma existsb_done_snoc (ib : list task) (t : task) :
  existsb is_done (ib ++ [t]) = existsb is_done ib || is_done t.
Proof. rewrite existsb_app. simpl. by rewrite orb_false_r. Qed.

Lemma pool_inv_start (tasks : list task) (n : nat) :
  Forall not_done tasks -> pool_inv n (start tasks n).
Proof.
  intros Htasks. exists tasks. simpl. rewrite waiting_replicate_nil.
  repeat split; [done| |by rewrite length_replicate].
  apply Forall_replicate. left. constructor.
Qed.

Lemma pool_inv_moves (n : nat) (s s' : pool) :
  pool_inv n s -> moves intake s s' -> pool_inv n s'.
Proof.
  intros (rest & Hstream & Hrest & Hshape & Hlen) Hmove.
  destruct Hmove as [t p q ibs | i ib t p q ibs Hi Hb]; simpl in *.
  - exists rest. simpl. by rewrite <- app_assoc.
  - pose proof (blocked_no_done ib Hb) as Hib.
    pose proof (proj2 (existsb_done_false ib) Hib) as Hex.
    pose proof (waiting_insert ibs i ib (ib ++ [t]) Hi) as Hw.
    rewrite existsb_done_snoc, Hex in Hw. simpl in Hw.
    destruct rest as [|r rest]; simpl in Hstream.
    + destruct (waiting ibs) as [|k] eqn:Hk; simpl in Hstream; [done|].
      injection Hstream as -> Hqp. simpl in Hw.
      exists []. repeat split; simpl.
      * rewrite Hqp. f_equal. lia.
      * constructor.
      * apply Forall_insert; [done|]. right. by exists ib.
      * by rewrite length_insert.
    + injection Hstream as -> Hqp. apply Forall_cons in Hrest as [Hr Hrest].
      rewrite Hr in Hw. simpl in Hw.
      exists rest. repeat split; simpl.
      * rewrite Hqp. do 2 f_equal. lia.
      * done.
      * apply Forall_insert; [done|]. left.
        apply Forall_app. split; [done | by repeat constructor].
      * by rewrite length_insert.
Qed.

Lemma pool_inv_reachable (tasks : list task) (n : nat) (s : pool) :
  Forall not_done tasks -> rtc (moves intake) (start tasks n) s -> pool_inv n s.
Proof.
  intros Htasks Hrtc.
  assert (pool_inv n (start tasks n)) as H0 by by apply pool_inv_start.
  induction Hrtc as [|s1 s2 s3 Hmove _ IH]; [done|].
  apply IH. by apply (pool_inv_moves n s1).
Qed.

(** In a reachable pool every loop is inside a [get] or is over. *)
Lemma pool_inv_loops (n : nat) (s : pool) :
  pool_inv n s ->
  length (inboxes s) = n
  /\ Forall (fun ib => in_loop intake ib \/ exists batch, left_loop intake ib batch)
            (inboxes s).
Proof.
  intros (rest & _ & _ & Hshape & Hlen). split; [done|].
  eapply Forall_impl; [exact Hshape|]. intros ib [Hib|(b & -> & Hb)]; simpl.
  - left. split; [|done]. by apply (proj1 Hintake).
  - right. exists b. split; [|done].
    by rewrite (proj2 Hintake b [] Hb).
Qed.

(** When nothing can move, every loop is over and no ['done'] is left. *)
Lemma pool_inv_final (n : nat) (s : pool) :
  pool_inv n s -> (forall s', ~ moves intake s s') ->
  Forall (fun ib => exists batch, left_loop intake ib batch) (inboxes s)
  /\ to_put s = [] /\ Forall not_done (on_queue s).
Proof.
  intros Hinv Hnf.
  destruct (pool_inv_loops n s Hinv) as [_ Hloops].
  destruct Hinv as (rest & Hstream & Hrest & Hshape & Hlen).
  destruct s as [p q ibs]. simpl in *.
  destruct p as [|t p]; [|by destruct (Hnf _ (moves_put intake t p q ibs))].
  rewrite app_nil_r in Hstream.
  assert (waiting ibs = 0%nat) as Hw.
  { destruct q as [|t q].
    - symmetry in Hstream. apply app_eq_nil in Hstream as [_ Hrep].
      by destruct (waiting ibs).
    - destruct (decide (waiting ibs = 0%nat)) as [|Hpos]; [done|].
      destruct (waiting_pos ibs Hpos) as (i & ib & Hi & Hex).
      apply existsb_done_false in Hex.
      by destruct (Hnf _ (moves_get intake i ib t [] q ibs Hi (proj1 Hintake ib Hex))). }
  rewrite Hw in Hstream. simpl in Hstream. rewrite app_nil_r in Hstream.
  subst q. repeat split; [|done].
  apply waiting_zero in Hw.
  apply Forall_forall. intros ib Hin.
  pose proof (proj1 (Forall_forall _ _) Hw ib Hin) as Hex.
  destruct (proj1 (Forall_forall _ _) Hloops ib Hin) as [[_ Hib]|Hleft]; [|done].
  apply existsb_done_false in Hib. congruence.
Qed.

Lemma moves_distance (s s' : pool) :
  moves intake s s' ->
  (S (2 * length (to_put s') + length (on_queue s'))
   = 2 * length (to_put s) + length (on_queue s))%nat.
Proof.
  intros [t p q ibs | i ib t p q ibs Hi Hb]; simpl.
  - rewrite length_app. simpl. lia.
  - lia.
Qed.

Lemma nsteps_moves_distance (k : nat) (s s' : pool) :
  nsteps (moves intake) k s s' ->
  (k + (2 * length (to_put s') + length (on_queue s'))
   = 2 * length (to_put s) + length (on_queue s))%nat.
Proof.
  induction 1 as [|k s1 s2 s3 Hmove _ IH]; [done|].
  apply moves_distance in Hmove. lia.
Qed.

End PoolFacts.

(** C5.  With [n] workers and exactly [n] ['done'] items put after the real
    work, in every interleaving of the coordinator's puts and the workers'
    gets, for the intake loop of either script: every worker's loop is
    either still inside a [get], having taken no ['done'], or it is over,
    having returned at its first ['done'] a batch that holds no ['done'] and
    having taken nothing after; no run is longer than two steps per item
    put; and when nothing can move any more every worker's loop is over,
    each worker having taken exactly one ['done'], and no ['done'] is left
    on the queue. *)
Theorem one_sentinel_per_worker (tasks : list task) (n : nat)
    (intake : list task -> list task -> M (list task * list task)) :
  Forall not_done tasks ->
  intake = Ticker.intake \/ intake = Image.intake ->
  (forall s, rtc (moves intake) (start tasks n) s ->
     length (inboxes s) = n
     /\ Forall (fun ib => in_loop intake ib \/ exists batch, left_loop intake ib batch)
               (inboxes s))
  /\ (forall s, rtc (moves intake) (start tasks n) s -> (forall s', ~ moves intake s s') ->
        Forall (fun ib => exists batch, left_loop intake ib batch) (inboxes s)
        /\ to_put s = [] /\ Forall not_done (on_queue s))
  /\ (forall k s, nsteps (moves intake) k (start tasks n) s ->
        (k <= 2 * (length tasks + n))%nat).
Proof.
  intros Htasks Hwhich.
  assert (intake_behaviour intake) as Hintake.
  { destruct Hwhich as [-> | ->];
      [apply ticker_intake_behaviour | apply image_intake_behaviour]. }
  split; [|split].
  - intros s Hs. apply (pool_inv_loops intake Hintake n).
    by apply (pool_inv_reachable intake Hintake tasks).
  - intros s Hs Hnf. apply (pool_inv_final intake Hintake n); [|done].
    by apply (pool_inv_reachable intake Hintake tasks).
  - intros k s Hk. apply nsteps_moves_distance in Hk. simpl in Hk.
    rewrite length_app, length_replicate in Hk. lia.
Qed.

Lemma two_drained_reachable_ticker :
  rtc (moves Ticker.intake) (start [TStr "AAA"; TStr "BBB"] 2) two_drained.
Proof.
  eapply rtc_l; [apply moves_put|].
  eapply rtc_l; [apply moves_put|].
  eapply rtc_l; [exact (moves_get Ticker.intake 0 [] (TStr "AAA") [DONE; DONE] [TStr "BBB"]
                          [[]; []] eq_refl eq_refl)|].
  eapply rtc_l; [exact (moves_get Ticker.intake 1 [] (TStr "BBB") [DONE; DONE] []
                          [[TStr "AAA"]; []] eq_refl eq_refl)|].
  eapply rtc_l; [apply moves_put|].
  eapply rtc_l; [apply moves_put|].
  eapply rtc_l; [exact (moves_get Ticker.intake 0 [TStr "AAA"] DONE [] [DONE]
                          [[TStr "AAA"]; [TStr "BBB"]] eq_refl eq_refl)|].
  eapply rtc_l; [|apply rtc_refl].
  exact (moves_get Ticker.intake 1 [TStr "BBB"] DONE [] []
           [[TStr "AAA"; DONE]; [TStr "BBB"]] eq_refl eq_refl).
Defined.

Lemma two_drained_reachable_image :
  rtc (moves Image.intake) (start [TStr "AAA"; TStr "BBB"] 2) two_drained.
Proof.
  eapply rtc_l; [apply moves_put|].
  eapply rtc_l; [apply moves_put|].
  eapply rtc_l; [exact (moves_get Image.intake 0 [] (TStr "AAA") [DONE; DONE] [TStr "BBB"]
                          [[]; []] eq_refl eq_refl)|].
  eapply rtc_l; [exact (moves_get Image.intake 1 [] (TStr "BBB") [DONE; DONE] []
                          [[TStr "AAA"]; []] eq_refl eq_refl)|].
  eapply rtc_l; [apply moves_put|].
  eapply rtc_l; [apply moves_put|].
  eapply rtc_l; [exact (moves_get Image.intake 0 [TStr "AAA"] DONE [] [DONE]
                          [[TStr "AAA"]; [TStr "BBB"]] eq_refl eq_refl)|].
  eapply rtc_l; [|apply rtc_refl].
  exact (moves_get Image.intake 1 [TStr "BBB"] DONE [] []
           [[TStr "AAA"; DONE]; [TStr "BBB"]] eq_refl eq_refl).
Defined.

Lemma two_drained_final (intake : list task -> list task -> M (list task * list task))
    (s' : pool) : ~ moves intake two_drained s'.
Proof. intros H. inversion H. Defined.

(** Two workers, two tickers: [AAA] and [BBB] are put, each worker takes
    one, the two ['done'] items are put, each worker takes one.  Then
    nothing can move, and each worker's loop, of either script, has
    returned its one ticker at its one ['done']. *)
Lemma one_sentinel_per_worker_witness :
  Forall not_done [TStr "AAA"; TStr "BBB"]
  /\ (Forall (fun ib => exists batch, left_loop Ticker.intake ib batch)
             [[TStr "AAA"; DONE]; [TStr "BBB"; DONE]]
      /\ to_put two_drained = [] /\ Forall not_done (on_queue two_drained))
  /\ (Forall (fun ib => exists batch, left_loop Image.intake ib batch)
             [[TStr "AAA"; DONE]; [TStr "BBB"; DONE]]
      /\ to_put two_drained = [] /\ Forall not_done (on_queue two_drained)).
Proof.
  assert (Forall not_done [TStr "AAA"; TStr "BBB"]) as Htasks.
  { apply Forall_cons_2; [reflexivity|].
    apply Forall_cons_2; [reflexivity | apply Forall_nil_2]. }
  split; [exact Htasks|]. split.
  - destruct (one_sentinel_per_worker [TStr "AAA"; TStr "BBB"] 2 Ticker.intake Htasks
                (or_introl eq_refl)) as (_ & Hfinal & _).
    exact (Hfinal two_drained two_drained_reachable_ticker (two_drained_final _)).
  - destruct (one_sentinel_per_worker [TStr "AAA"; TStr "BBB"] 2 Image.intake Htasks
                (or_intror eq_refl)) as (_ & Hfinal & _).
    exact (Hfinal two_drained two_drained_reachable_image (two_drained_final _)).
Defined.

(** ** Files *)

Lemma apply_trace_app (fs : gmap string string) (tr1 tr2 : list event) :
  apply_trace fs (tr1 ++ tr2) = apply_trace (apply_trace fs tr1) tr2.
Proof. apply fold_left_app. Qed.

Section FileFacts.
Variable http : string -> response.
Variables base_url out_dir : string.
Variable fs : gmap string string.

(** In async mode a ticker whose fetch succeeded is appended to its file. *)
Lemma ticker_async_appends (t : task) :
  let url := base_url +:+ str t in
  let fname := out_dir +:+ "/" +:+ str t +:+ ".csv" in
  status (http url) = 200 -> body (http url) <> "" ->
  result (Ticker.aio_process http base_url out_dir t)
    = Returned (str t +:+ " fetch succeeded")
  /\ apply_trace fs (trace (Ticker.aio_process http base_url out_dir t)) !! fname
     = Some (default "" (fs !! fname) +:+ body (http url)).
Proof.
  intros url fname Hs Hb. unfold Ticker.aio_process, Ticker.get. simpl.
  fold url fname. rewrite Hs. simpl.
  destruct (body (http url)) as [|c b] eqn:Hbody; [done|]. simpl.
  split; [done|]. unfold apply_trace. simpl.
  destruct (fs !! fname) as [old|] eqn:Hold; simpl.
  - by rewrite lookup_insert_eq, Hold.
  - by rewrite !lookup_insert_eq.
Qed.

(** In sync mode the file of a ticker whose fetch succeeded is replaced. *)
Lemma ticker_sync_truncates (t : task) :
  let url := base_url +:+ str t in
  let fname := out_dir +:+ "/" +:+ str t +:+ ".csv" in
  status (http url) = 200 ->
  puts (trace (Ticker.sync_one http base_url out_dir t)) = [str t +:+ " fetch succeeded"]
  /\ apply_trace fs (trace (Ticker.sync_one http base_url out_dir t)) !! fname
     = Some (body (http url)).
Proof.
  intros url fname Hs. unfold Ticker.sync_one. simpl.
  fold url fname. rewrite Hs. simpl. split; [done|].
  unfold apply_trace. simpl. by rewrite !lookup_insert_eq.
Qed.

(** A response other than 200 for a ticker: a failure record and no file
    event, in both modes. *)
Lemma ticker_non_200 (t : task) :
  let url := base_url +:+ str t in
  status (http url) <> 200 ->
  Ticker.aio_process http base_url out_dir t
    = ([EGet url], Returned (str t +:+ " fetch failed"))
  /\ Ticker.sync_one http base_url out_dir t
     = ([EGet url; EPut (str t +:+ " fetch failed")], Returned tt).
Proof.
  intros url Hs. unfold Ticker.aio_process, Ticker.get, Ticker.sync_one. simpl.
  fold url. apply Z.eqb_neq in Hs. by rewrite Hs.
Qed.

(** An image whose fetch succeeded replaces the file of its name, under
    [OUT_DIR] in async mode and under [images] in sync mode. *)
Lemma image_files_overwritten (config_OUT_DIR image_url : string) (page : task) :
  status (http image_url) = 200 -> body (http image_url) <> "" ->
  apply_trace fs (trace (Image.aio_process http config_OUT_DIR image_url "image"))
    !! (config_OUT_DIR +:+ "/" +:+ PyStr.last_segment image_url)
    = Some (body (http image_url))
  /\ apply_trace fs (trace (Image.sync_image http page image_url))
       !! ("images/" +:+ PyStr.last_segment image_url)
     = Some (body (http image_url)).
Proof.
  intros Hs Hb. unfold Image.aio_process, Image.get, Image.sync_image. simpl.
  rewrite Hs. simpl.
  destruct (body (http image_url)) as [|c b] eqn:Hbody; [done|]. simpl.
  unfold apply_trace. simpl. by rewrite !lookup_insert_eq.
Qed.

End FileFacts.

(** The listing filter keeps exactly the [src] values that mention the
    host, in document order. *)
Lemma wanted_spec (srcs : list string) (u : string) :
  u ∈ Image.wanted srcs <-> PyStr.contains Image.HOST u = true /\ u ∈ srcs.
Proof. unfold Image.wanted. by rewrite list_elem_of_filter. Qed.

(** ** The coordinators *)

Lemma task_puts_app (tr1 tr2 : list event) :
  task_puts (tr1 ++ tr2) = task_puts tr1 ++ task_puts tr2.
Proof.
  induction tr1 as [|e tr1 IH]; [done|].
  destruct e; simpl; by rewrite ?IH.
Qed.

Lemma task_puts_map (ts : list task) : task_puts (map ETaskPut ts) = ts.
Proof. induction ts; simpl; congruence. Qed.

Lemma task_puts_starts (n : nat) : task_puts (replicate n EStart) = [].
Proof. by induction n. Qed.

Lemma task_puts_sentinels (n : nat) :
  task_puts (replicate n (ETaskPut DONE)) = replicate n DONE.
Proof. induction n; simpl; congruence. Qed.

Lemma result_gets_app (tr1 tr2 : list event) :
  result_gets (tr1 ++ tr2) = (result_gets tr1 + result_gets tr2)%nat.
Proof.
  induction tr1 as [|e tr1 IH]; [done|].
  destruct e; simpl; by rewrite ?IH.
Qed.

Lemma result_gets_map (rs : list string) :
  result_gets (map EResultGet rs) = length rs.
Proof. induction rs; simpl; congruence. Qed.

Lemma result_gets_replicate (n : nat) (e : event) :
  match e with EResultGet _ => False | _ => True end ->
  result_gets (replicate n e) = 0%nat.
Proof. intros He. induction n; [done|]. by destruct e. Qed.

Lemma task_puts_gets (rs : list string) : task_puts (map EResultGet rs) = [].
Proof. induction rs as [|r rs IH]; [done | exact IH]. Qed.

Lemma result_gets_puts (ts : list task) : result_gets (map ETaskPut ts) = 0%nat.
Proof. induction ts as [|t ts IH]; [done | exact IH]. Qed.

(** Draining [n] records reads [n] of them when there are that many, and
    otherwise reads what there is and waits. *)
Lemma count_failed_reads (n : nat) (results : list string) :
  task_puts (trace (count_failed n results)) = []
  /\ result_gets (trace (count_failed n results)) = Nat.min n (length results)
  /\ ((length results < n)%nat -> result (count_failed n results) = Blocked).
Proof.
  destruct (le_lt_dec n (length results)) as [Hn|Hn].
  - rewrite count_failed_enough by done. simpl.
    rewrite result_gets_map, length_take, task_puts_gets. split; [done|].
    split; lia.
  - rewrite count_failed_short by done. simpl.
    rewrite result_gets_map, task_puts_gets. split; [done|].
    split; [lia | done].
Qed.

Lemma enqueue_take (idx fetch_count : Z) (tickers_list : list task) :
  TickerMain.enqueue idx fetch_count tickers_list
  = (map ETaskPut (take (Z.to_nat (fetch_count - idx)) tickers_list), Returned tt).
Proof.
  revert idx. induction tickers_list as [|item l IH]; intros idx; simpl.
  - by rewrite take_nil.
  - rewrite Z.geb_leb. destruct (Z.leb_spec fetch_count idx) as [Hle|Hlt].
    + by replace (Z.to_nat (fetch_count - idx)) with 0%nat by lia.
    + rewrite IH. simpl.
      replace (Z.to_nat (fetch_count - idx))
        with (S (Z.to_nat (fetch_count - (idx + 1)))) by lia.
      done.
Qed.

(** What the ticker coordinator does to the two queues: it puts the first
    [fetch_count] entries of the ticker list, as far as the list goes, then
    one ['done'] per worker, and then reads [fetch_count] records. *)
Lemma ticker_main_queues (fetch_count process_count cpu_count : Z)
    (tickers_list : list task) (results : list string) :
  let m := TickerMain.main fetch_count process_count cpu_count tickers_list results in
  let workers := range_len (TickerMain.effective_process_count process_count cpu_count) in
  task_puts (trace m)
    = take (range_len fetch_count) tickers_list ++ replicate workers DONE
  /\ result_gets (trace m) = Nat.min (range_len fetch_count) (length results)
  /\ ((length results < range_len fetch_count)%nat -> result m = Blocked).
Proof.
  intros m workers. subst m. unfold TickerMain.main. fold workers.
  rewrite !for_each_const, length_seq, bind_returned, enqueue_take, Z.sub_0_r.
  rewrite bind_returned, bind_returned.
  destruct (count_failed_reads (range_len fetch_count) results) as (Hp & Hg & Hb).
  destruct (count_failed (range_len fetch_count) results) as [tr o]. simpl in *.
  assert (forall k : M (Z * Z),
    task_puts (replicate workers EStart ++
               map ETaskPut (take (range_len fetch_count) tickers_list) ++
               replicate workers (ETaskPut DONE) ++ tr ++ trace k)
    = take (range_len fetch_count) tickers_list ++ replicate workers DONE ++ task_puts (trace k)
    /\ result_gets (replicate workers EStart ++
               map ETaskPut (take (range_len fetch_count) tickers_list) ++
               replicate workers (ETaskPut DONE) ++ tr ++ trace k)
       = (Nat.min (range_len fetch_count) (length results) + result_gets (trace k))%nat) as H.
  { intros k. rewrite !task_puts_app, !result_gets_app, task_puts_starts, task_puts_map,
      task_puts_sentinels, Hp, Hg.
    rewrite !result_gets_replicate by done.
    split; [done|].
    rewrite result_gets_puts. lia. }
  destruct o as [k| |]; simpl.
  - destruct (H (ret (fetch_count - k, k))) as [H1 H2]. simpl in H1, H2.
    rewrite !app_nil_r in *. rewrite Nat.add_0_r in H2. split; [done|]. split; [done|].
    intros Hlt. by specialize (Hb Hlt).
  - destruct (H (ret (0, 0))) as [H1 H2]. simpl in H1, H2.
    rewrite !app_nil_r in *. rewrite Nat.add_0_r in H2. split; [done|]. split; [done|].
    intros Hlt. by specialize (Hb Hlt).
  - destruct (H (ret (0, 0))) as [H1 H2]. simpl in H1, H2.
    rewrite !app_nil_r in *. rewrite Nat.add_0_r in H2. done.
Qed.

Lemma for_each_emit {A} (f : A -> event) (xs : list A) :
  for_each (fun x => emit (f x)) xs = (map f xs, Returned tt).
Proof.
  induction xs as [|x xs IH]; [done|].
  rewrite for_each_cons, IH. done.
Qed.

(** What the image coordinator does to the two queues: with [pages] the
    configured page count cut down to what the site offers, it puts the page
    numbers [1 .. pages], then one ['done'] per worker, and then reads
    [pages] records. *)
Lemma image_main_queues (http : string -> response) (pages_on_site : string -> exn + Z)
    (url item : string) (amount_pages process_count cpu_count on_site : Z)
    (results : list string) :
  let m := ImageMain.main http pages_on_site url item
             amount_pages process_count cpu_count results in
  let pages := range_len (if amount_pages >? on_site then on_site else amount_pages) in
  let workers := range_len (ImageMain.effective_process_count process_count cpu_count) in
  pages_on_site (body (http (url +:+ "/p1/" +:+ item +:+ ".html"))) = inr on_site ->
  task_puts (trace m)
    = map (fun k => TInt (Z.of_nat k + 1)) (seq 0 pages) ++ replicate workers DONE
  /\ result_gets (trace m) = Nat.min pages (length results)
  /\ ((length results < pages)%nat -> result m = Blocked).
Proof.
  intros m pages workers Hsite. subst m. unfold ImageMain.main. cbv zeta.
  unfold emit at 1. rewrite bind_returned, Hsite. fold workers. fold pages.
  rewrite !for_each_const, length_seq, bind_returned.
  rewrite (for_each_emit (fun k => ETaskPut (TInt (Z.of_nat k + 1)))).
  rewrite bind_returned, bind_returned.
  destruct (count_failed_reads pages results) as (Hp & Hg & Hb).
  destruct (count_failed pages results) as [tr o]. simpl in Hp, Hg, Hb.
  set (tasks := map (fun k => TInt (Z.of_nat k + 1)) (seq 0 pages)).
  assert (map (fun k => ETaskPut (TInt (Z.of_nat k + 1))) (seq 0 pages)
          = map ETaskPut tasks) as -> by (subst tasks; by rewrite map_map).
  assert (forall k : M (Z * Z),
    task_puts ([EGet (url +:+ "/p1/" +:+ item +:+ ".html")] ++
               replicate workers EStart ++ map ETaskPut tasks ++
               replicate workers (ETaskPut DONE) ++ tr ++ trace k)
    = tasks ++ replicate workers DONE ++ task_puts (trace k)
    /\ result_gets ([EGet (url +:+ "/p1/" +:+ item +:+ ".html")] ++
               replicate workers EStart ++ map ETaskPut tasks ++
               replicate workers (ETaskPut DONE) ++ tr ++ trace k)
       = (Nat.min pages (length results) + result_gets (trace k))%nat) as H.
  { intros k. rewrite !task_puts_app, !result_gets_app, task_puts_starts, task_puts_map,
      task_puts_sentinels, Hp, Hg.
    rewrite !result_gets_replicate by done. rewrite result_gets_puts.
    split; [done|]. simpl. lia. }
  destruct o as [k| |]; simpl.
  - destruct (H (ret (0, 0))) as [H1 H2]. simpl in H1, H2.
    rewrite !app_nil_r in *. rewrite Nat.add_0_r in H2. split; [done|]. split; [done|].
    intros Hlt. by specialize (Hb Hlt).
  - destruct (H (ret (0, 0))) as [H1 H2]. simpl in H1, H2.
    rewrite !app_nil_r in *. rewrite Nat.add_0_r in H2. split; [done|]. split; [done|].
    intros Hlt. by specialize (Hb Hlt).
  - destruct (H (ret (0, 0))) as [H1 H2]. simpl in H1, H2.
    rewrite !app_nil_r in *. rewrite Nat.add_0_r in H2. done.
Qed.

(** ** One record per ticker *)

(** A ticker worker puts one record for each item of its batch, in either
    mode, and none for the ['done'] that ends the batch. *)
Lemma ticker_run_one_record_per_task (http : string -> response)
    (base_url out_dir mode : string) (sched : list nat) (pre post : list task) :
  Forall not_done pre ->
  length (puts (trace (Ticker.run http base_url out_dir mode sched (pre ++ DONE :: post))))
    = length pre
  /\ result (Ticker.run http base_url out_dir mode sched (pre ++ DONE :: post))
     = Returned post.
Proof.
  intros Hpre. unfold Ticker.run.
  rewrite (ticker_intake_stops pre post [] Hpre), bind_returned. simpl.
  assert (forall tr : list event, puts (replicate (length pre) ETaskDone ++ tr) = puts tr) as Hack.
  { intros tr. rewrite puts_app.
    assert (puts (replicate (length pre) ETaskDone) = []) as -> by by induction (length pre).
    done. }
  destruct (String.eqb mode "async").
  - destruct (ticker_asyncio_sessions_puts http base_url out_dir sched pre) as [Hl Hr].
    destruct (Ticker.asyncio_sessions _ _ _ _ _) as [tr o]. simpl in Hl, Hr. subst o.
    simpl. rewrite Hack, puts_app. simpl. rewrite app_nil_r. done.
  - destruct (ticker_sync_process_puts http base_url out_dir pre) as [Hl Hr].
    destruct (Ticker.sync_process _ _ _ _) as [tr o]. simpl in Hl, Hr. subst o.
    simpl. rewrite Hack, puts_app. simpl. rewrite app_nil_r. done.
Qed.

(** * The claims that the code does not meet *)

(** C1.  One record per task holds for the ticker worker
    ([ticker_run_one_record_per_task]) but not for the image worker, which
    puts one record per image.  Page 1 of the sample site shows two images:
    the worker that takes page 1 puts two records, of which a coordinator
    counting one page reads one.  Page 2 shows none: the worker puts
    nothing, and the coordinator waits for a record that never comes. *)
Theorem image_worker_records_follow_images :
  puts (trace (Sample.image_run "sync" [] [TInt 1; DONE]))
    = ["1 fetch succeeded"; "1 fetch succeeded"]
  /\ puts (trace (Sample.image_run "async" [] [TInt 1; DONE]))
     = ["Fetch succeeded: " +:+ Sample.IMG_A; "Fetch succeeded: " +:+ Sample.IMG_B]
  /\ result_gets (trace (count_failed 1
       (puts (trace (Sample.image_run "sync" [] [TInt 1; DONE]))))) = 1%nat
  /\ puts (trace (Sample.image_run "sync" [] [TInt 2; DONE])) = []
  /\ puts (trace (Sample.image_run "async" [] [TInt 2; DONE])) = []
  /\ result (count_failed 1
       (puts (trace (Sample.image_run "sync" [] [TInt 2; DONE])))) = Blocked.
Proof. vm_compute. repeat split. Qed.

(** C2.  A ticker that is answered with anything but 200 gets a failure
    record and no file ([ticker_non_200]).  An image does not: page 3 of the
    sample site shows an image that is answered with 404.  In sync mode the
    worker puts no record for it.  In async mode [get] hands back the string
    ['failed'], which is truthy: the worker opens the image file for writing
    and raises on writing a [str] to it, and puts no record. *)
Theorem image_non_200_gives_no_failure_record :
  Sample.image_run "sync" [] [TInt 3; DONE]
    = ([ETaskDone; EGet "http://s/p3/cat.html"; EGet Sample.IMG_GONE; ETaskDone],
       Returned [])
  /\ Sample.image_run "async" [] [TInt 3; DONE]
     = ([ETaskDone; EGet "http://s/p3/cat.html"; EGet Sample.IMG_GONE;
         EOpen "out/gone.jpg" ModeWB],
        Raised TypeError).
Proof. vm_compute. repeat split. Qed.

(** C3.  With [out/AAA.csv] already holding ["old"], a successful fetch of
    [AAA] leaves ["olda1"] in async mode, where the file is opened with
    ['a'], but ["a1"] in sync mode, where it is opened with ['w'].  Image
    files are opened with ['wb'] in both modes
    ([image_files_overwritten]). *)
Theorem ticker_sync_replaces_existing_file :
  apply_trace {[ "out/AAA.csv" := "old" ]}
    (trace (Sample.ticker_run "async" [] [TStr "AAA"; DONE])) !! "out/AAA.csv"
    = Some "olda1"
  /\ apply_trace {[ "out/AAA.csv" := "old" ]}
       (trace (Sample.ticker_run "sync" [] [TStr "AAA"; DONE])) !! "out/AAA.csv"
     = Some "a1"
  /\ opens (trace (Sample.ticker_run "sync" [] [TStr "AAA"; DONE])) = ["out/AAA.csv"]
  /\ In (EOpen "out/AAA.csv" ModeW) (trace (Sample.ticker_run "sync" [] [TStr "AAA"; DONE])).
Proof. vm_compute. repeat split. tauto. Qed.

(** C4.  The image coordinator puts as many page numbers as it later reads
    records ([image_main_queues]).  The ticker coordinator puts at most what
    the ticker list holds but reads [fetch_count] records
    ([ticker_main_queues]): asked for 2 tickers with a list of 1, it puts
    one item and one ['done'], and having read the one record there can be
    it waits for a second. *)
Theorem ticker_main_short_list :
  (forall results,
     task_puts (trace (TickerMain.main 2 1 4 [TStr "AAA"] results))
       = [TStr "AAA"; DONE])
  /\ (forall r,
        TickerMain.main 2 1 4 [TStr "AAA"] [r]
        = ([EStart; ETaskPut (TStr "AAA"); ETaskPut DONE; EResultGet r], Blocked)).
Proof.
  split.
  - intros results.
    by destruct (ticker_main_queues 2 1 4 [TStr "AAA"] results) as [-> _].
  - intros r. reflexivity.
Qed.

(** C8.  Both modes take the [img/@src] values of the listing that mention
    the host ([wanted_spec]) and name the file after the last segment of the
    URL.  Async mode writes it under [OUT_DIR], sync mode under the fixed
    directory [images]: with [OUT_DIR] set to ["out"], the two images of
    page 1 go to [out/] in async mode and to [images/] in sync mode. *)
Theorem image_sync_ignores_out_dir :
  opens (trace (Sample.image_run "async" [] [TInt 1; DONE]))
    = ["out/a.jpg"; "out/b.jpg"]
  /\ opens (trace (Sample.image_run "sync" [] [TInt 1; DONE]))
     = ["images/a.jpg"; "images/b.jpg"]
  /\ Image.wanted [Sample.IMG_A; Sample.LOGO; Sample.IMG_B]
     = [Sample.IMG_A; Sample.IMG_B].
Proof. vm_compute. repeat split. Qed.

(** * Further properties of the workers *)

(** ** Traces of loops *)

Lemma for_each_all_return {A} (body : A -> M unit) (xs : list A) :
  (forall x, result (body x) = Returned tt) ->
  for_each body xs = (concat (map (fun x => trace (body x)) xs), Returned tt).
Proof.
  intros Hret. induction xs as [|x xs IH]; [done|].
  rewrite for_each_cons, IH. specialize (Hret x). simpl.
  destruct (body x) as [tr o]. simpl in *. by subst o.
Qed.

Lemma gets_app (tr1 tr2 : list event) : gets (tr1 ++ tr2) = gets tr1 ++ gets tr2.
Proof.
  induction tr1 as [|e tr1 IH]; [done|].
  destruct e; simpl; by rewrite ?IH.
Qed.

Lemma opens_app (tr1 tr2 : list event) : opens (tr1 ++ tr2) = opens tr1 ++ opens tr2.
Proof.
  induction tr1 as [|e tr1 IH]; [done|].
  destruct e; simpl; by rewrite ?IH.
Qed.

Lemma acks_app (tr1 tr2 : list event) : acks (tr1 ++ tr2) = (acks tr1 + acks tr2)%nat.
Proof.
  induction tr1 as [|e tr1 IH]; [done|].
  destruct e; simpl; by rewrite ?IH.
Qed.

Lemma gets_map_EPut (rs : list string) : gets (map EPut rs) = [].
Proof. induction rs as [|r rs IH]; [done | exact IH]. Qed.

Lemma acks_map_EPut (rs : list string) : acks (map EPut rs) = 0%nat.
Proof. induction rs as [|r rs IH]; [done | exact IH]. Qed.

Lemma acks_replicate (n : nat) : acks (replicate n ETaskDone) = n.
Proof. induction n; simpl; congruence. Qed.

Lemma gets_replicate_ack (n : nat) : gets (replicate n ETaskDone) = [].
Proof. by induction n. Qed.

Lemma puts_replicate_ack (n : nat) : puts (replicate n ETaskDone) = [].
Proof. by induction n. Qed.

Lemma gets_Permutation (tr1 tr2 : list event) :
  tr1 ≡ₚ tr2 -> gets tr1 ≡ₚ gets tr2.
Proof.
  induction 1 as [|e tr1 tr2 _ IH|e1 e2 tr|tr1 tr2 tr3 _ IH1 _ IH2].
  - done.
  - destruct e; simpl; by rewrite ?IH.
  - destruct e1, e2; simpl; try done. apply perm_swap.
  - by rewrite IH1.
Qed.

Lemma acks_Permutation (tr1 tr2 : list event) :
  tr1 ≡ₚ tr2 -> acks tr1 = acks tr2.
Proof.
  induction 1 as [|e tr1 tr2 _ IH|e1 e2 tr|tr1 tr2 tr3 _ IH1 _ IH2].
  - done.
  - destruct e; simpl; by rewrite ?IH.
  - by destruct e1, e2.
  - by rewrite IH1.
Qed.

(** ** The ticker worker, item by item *)

Section TickerItems.
Variable http : string -> response.
Variables base_url out_dir : string.

Local Abbreviation ok := (answered_ok http base_url).
Local Abbreviation empty := (answered_empty http base_url).
Local Abbreviation url := (ticker_url base_url).
Local Abbreviation file := (ticker_file out_dir).
Local Abbreviation aio_process := (Ticker.aio_process http base_url out_dir).
Local Abbreviation asyncio_sessions := (Ticker.asyncio_sessions http base_url out_dir).
Local Abbreviation sync_process := (Ticker.sync_process http base_url out_dir).
Local Abbreviation sync_one := (Ticker.sync_one http base_url out_dir).

Lemma ticker_sync_one_cases (t : task) :
  sync_one t
  = if ok t
    then ([EGet (url t); EOpen (file t) ModeW; EWrite (file t) (body (http (url t)));
           EPut (succeeded t)], Returned tt)
    else ([EGet (url t); EPut (failed t)], Returned tt).
Proof.
  unfold Ticker.sync_one, answered_ok, ticker_url, ticker_file, succeeded, failed.
  simpl. by destruct (status (http (base_url +:+ str t)) =? 200).
Qed.

Lemma ticker_aio_process_cases (t : task) :
  aio_process t
  = if ok t && negb (PyStr.is_empty (body (http (url t))))
    then ([EGet (url t); EOpen (file t) ModeA; EWrite (file t) (body (http (url t)))],
          Returned (succeeded t))
    else ([EGet (url t)], Returned (failed t)).
Proof.
  unfold Ticker.aio_process, Ticker.get, answered_ok, ticker_url, ticker_file,
    succeeded, failed.
  simpl. destruct (status (http (base_url +:+ str t)) =? 200); simpl; [|done].
  by destruct (body (http (base_url +:+ str t))).
Qed.

Lemma ticker_sync_process_cons (t : task) (tickers : list task) :
  sync_process (t :: tickers)
  = (trace (sync_one t) ++ trace (sync_process tickers), result (sync_process tickers)).
Proof.
  unfold Ticker.sync_process. rewrite for_each_cons.
  rewrite (ticker_sync_one_cases t). destruct (ok t); by rewrite bind_returned.
Qed.

Lemma ticker_sync_in_batch_order_facts (tickers : list task) :
  result (sync_process tickers) = Returned tt
  /\ gets (trace (sync_process tickers)) = map url tickers
  /\ puts (trace (sync_process tickers))
     = map (fun t => if ok t then succeeded t else failed t) tickers
  /\ opens (trace (sync_process tickers))
     = map file (filter (fun t => ok t = true) tickers).
Proof.
  induction tickers as [|t tickers (IHr & IHg & IHp & IHo)]; [done|].
  rewrite ticker_sync_process_cons. simpl.
  rewrite gets_app, puts_app, opens_app, IHg, IHp, IHo, filter_cons.
  rewrite (ticker_sync_one_cases t).
  split; [done|].
  destruct (decide (ok t = true)) as [Hok|Hok].
  - by rewrite Hok.
  - apply not_true_is_false in Hok. by rewrite Hok.
Qed.

Lemma ticker_coroutine_records (tickers : list task) (rs : list string) :
  all_return (map aio_process tickers) rs ->
  rs = map (fun t => if ok t && negb (PyStr.is_empty (body (http (url t))))
                     then succeeded t else failed t) tickers.
Proof.
  revert rs. induction tickers as [|t tickers IH]; intros rs Hall.
  - by apply Forall2_nil_inv_l in Hall.
  - apply Forall2_cons_inv_l in Hall as (r & rs' & Hr & Hall & ->).
    rewrite (IH rs' Hall). simpl. f_equal.
    rewrite ticker_aio_process_cases in Hr.
    destruct (ok t && _); simpl in Hr; congruence.
Qed.

Lemma ticker_coroutine_gets (tickers : list task) :
  gets (concat (trace <$> map aio_process tickers)) = map url tickers.
Proof.
  induction tickers as [|t tickers IH]; [done|].
  rewrite map_cons, fmap_cons, concat_cons, gets_app, IH, ticker_aio_process_cases.
  by destruct (ok t && _).
Qed.

Lemma ticker_async_records_schedule_free_facts (sched : list nat) (tickers : list task) :
  result (asyncio_sessions sched tickers) = Returned tt
  /\ gets (trace (asyncio_sessions sched tickers)) ≡ₚ map url tickers
  /\ puts (trace (asyncio_sessions sched tickers))
     = map (fun t => if ok t && negb (PyStr.is_empty (body (http (url t))))
                     then succeeded t else failed t) tickers.
Proof.
  destruct (ticker_asyncio_sessions_shape http base_url out_dir sched tickers)
    as (work & rs & -> & Hperm & Hputs & Hrs).
  simpl. split; [done|]. split.
  - rewrite gets_app, gets_map_EPut, app_nil_r.
    rewrite (gets_Permutation _ _ Hperm). by rewrite ticker_coroutine_gets.
  - rewrite puts_app, Hputs, puts_map_EPut. simpl.
    by apply ticker_coroutine_records.
Qed.



End TickerItems.

(** ** Files under reordering *)

Lemma append_nil_r (s : string) : s +:+ "" = s.
Proof. induction s as [|c s IH]; [done|]. by rewrite append_cons, IH. Qed.

Lemma length_append (a c : string) :
  String.length (a +:+ c) = (String.length a + String.length c)%nat.
Proof. induction a as [|x a IH]; [done|]. rewrite append_cons. simpl. by rewrite IH. Qed.

Lemma append_inj_r (a b c : string) : a +:+ c = b +:+ c -> a = b.
Proof.
  revert b. induction a as [|x a IH]; intros [|y b] H.
  - done.
  - rewrite append_nil_l, append_cons in H.
    apply (f_equal String.length) in H. simpl in H.
    rewrite length_append in H. lia.
  - rewrite append_nil_l, append_cons in H.
    apply (f_equal String.length) in H. simpl in H.
    rewrite length_append in H. lia.
  - rewrite !append_cons in H. injection H as -> H. by rewrite (IH b H).
Qed.

Lemma apply_event_appended (fs : gmap string string) (e : event) :
  truncates e = false ->
  apply_event fs e
  = match appended e with
    | Some (p, d) => <[p := default "" (fs !! p) +:+ d]> fs
    | None => fs
    end.
Proof.
  destruct e as [u|p m|p d|r| | |t|r]; simpl; try done.
  destruct m; try done. intros _.
  destruct (fs !! p) as [c|] eqn:Hp; simpl.
  - by rewrite append_nil_r, insert_id.
  - done.
Qed.

Lemma appends_commute (e1 e2 : event) :
  truncates e1 = false -> truncates e2 = false ->
  (forall p d1 d2, appended e1 = Some (p, d1) -> appended e2 = Some (p, d2) ->
                   d1 = d2 \/ d1 = "" \/ d2 = "") ->
  commute e1 e2.
Proof.
  intros H1 H2 Hsame fs.
  rewrite (apply_event_appended _ e2 H2), (apply_event_appended fs e1 H1).
  rewrite (apply_event_appended _ e1 H1), (apply_event_appended fs e2 H2).
  destruct (appended e1) as [[p1 d1]|], (appended e2) as [[p2 d2]|]; try done.
  destruct (decide (p1 = p2)) as [->|Hne].
  - rewrite !lookup_insert_eq, !insert_insert_eq. simpl.
    destruct (Hsame p2 d1 d2 eq_refl eq_refl) as [->|[->| ->]];
      by rewrite ?append_nil_r.
  - rewrite !lookup_insert_ne by done. by apply insert_insert_ne.
Qed.

Lemma apply_trace_cons (fs : gmap string string) (e : event) (tr : list event) :
  apply_trace fs (e :: tr) = apply_trace (apply_event fs e) tr.
Proof. reflexivity. Qed.

(** Events that commute pairwise can be performed in any order. *)
Lemma apply_trace_Permutation (tr1 tr2 : list event) :
  tr1 ≡ₚ tr2 ->
  (forall e1 e2, e1 ∈ tr1 -> e2 ∈ tr1 -> commute e1 e2) ->
  forall fs, apply_trace fs tr1 = apply_trace fs tr2.
Proof.
  induction 1 as [|e tr1 tr2 _ IH|e1 e2 tr|tr1 tr2 tr3 H12 IH1 _ IH2]; intros Hc fs.
  - done.
  - rewrite !apply_trace_cons. apply IH.
    intros a b Ha Hb. apply Hc; by apply list_elem_of_further.
  - rewrite !apply_trace_cons. f_equal. apply Hc.
    + apply list_elem_of_here.
    + apply list_elem_of_further, list_elem_of_here.
  - rewrite (IH1 Hc). apply IH2.
    intros a b Ha Hb. apply Hc; by rewrite H12.
Qed.

Lemma apply_trace_puts (fs : gmap string string) (rs : list string) :
  apply_trace fs (map EPut rs) = fs.
Proof. induction rs as [|r rs IH]; [done | exact IH]. Qed.

Section TickerFiles.
Variable http : string -> response.
Variables base_url out_dir : string.

Local Abbreviation url := (ticker_url base_url).
Local Abbreviation file := (ticker_file out_dir).
Local Abbreviation aio_process := (Ticker.aio_process http base_url out_dir).
Local Abbreviation asyncio_sessions := (Ticker.asyncio_sessions http base_url out_dir).

(** Two tickers with the same file are fetched from the same URL. *)
Lemma ticker_file_url (t t' : task) : file t = file t' -> url t = url t'.
Proof.
  unfold ticker_file, ticker_url. intros H.
  apply (inj (String.app out_dir)) in H.
  apply (inj (String.app "/")) in H.
  apply append_inj_r in H. by rewrite H.
Qed.

Lemma ticker_coroutine_events (tickers : list task) (e : event) :
  e ∈ concat (trace <$> map aio_process tickers) ->
  truncates e = false
  /\ forall p d, appended e = Some (p, d) ->
       d = "" \/ exists t, p = file t /\ d = body (http (url t)).
Proof.
  induction tickers as [|t tickers IH]; [by intros ?%elem_of_nil|].
  rewrite map_cons, fmap_cons, concat_cons, elem_of_app.
  intros [He|He]; [|by apply IH].
  rewrite ticker_aio_process_cases in He.
  destruct (answered_ok http base_url t && _); simpl in He.
  - apply elem_of_cons in He as [->|He]; [done|].
    apply elem_of_cons in He as [->|He].
    { split; [done|]. intros p d [= <- <-]. by left. }
    apply elem_of_cons in He as [->|He]; [|by apply elem_of_nil in He].
    split; [done|]. intros p d [= <- <-]. right. by exists t.
  - apply elem_of_cons in He as [->|He]; [done | by apply elem_of_nil in He].
Qed.

Lemma ticker_coroutine_events_commute (tickers : list task) (e1 e2 : event) :
  e1 ∈ concat (trace <$> map aio_process tickers) ->
  e2 ∈ concat (trace <$> map aio_process tickers) ->
  commute e1 e2.
Proof.
  intros [Ht1 Ha1]%ticker_coroutine_events [Ht2 Ha2]%ticker_coroutine_events.
  apply appends_commute; [done..|].
  intros p d1 d2 H1 H2.
  destruct (Ha1 _ _ H1) as [->|(t1 & Hp1 & ->)]; [by right; left|].
  destruct (Ha2 _ _ H2) as [->|(t2 & Hp2 & ->)]; [by right; right|].
  left. rewrite Hp1 in Hp2. by rewrite (ticker_file_url _ _ Hp2).
Qed.


End TickerFiles.

(** ** A worker and its inbox *)

Lemma ticker_intake_waits (inbox acc : list task) :
  Forall not_done inbox ->
  Ticker.intake inbox acc = (replicate (length inbox) ETaskDone, Blocked).
Proof.
  revert acc. induction inbox as [|t inbox IH]; intros acc Hin; [done|].
  apply Forall_cons in Hin as [Ht Hin]. unfold not_done in Ht.
  simpl. by rewrite Ht, (IH _ Hin).
Qed.

Lemma image_intake_waits (inbox acc : list task) :
  Forall not_done inbox ->
  Image.intake inbox acc = (replicate (length inbox) ETaskDone, Blocked).
Proof.
  revert acc. induction inbox as [|t inbox IH]; intros acc Hin; [done|].
  apply Forall_cons in Hin as [Ht Hin]. unfold not_done in Ht.
  simpl. by rewrite Ht, (IH _ Hin).
Qed.

(** X6.  A worker does no work before its ['done'] arrives: with an inbox
    that holds no ['done'], either worker acknowledges the items it takes
    and then waits on the queue, having requested nothing, written nothing
    and reported nothing, in either mode. *)
Theorem worker_waits_for_done
    (http : string -> response) (img_srcs : string -> option (list string))
    (base_url out_dir config_URL config_OUT_DIR url mode item : string)
    (sched : list nat) (inbox : list task) :
  Forall not_done inbox ->
  Ticker.run http base_url out_dir mode sched inbox
    = (replicate (length inbox) ETaskDone, Blocked)
  /\ Image.run http img_srcs config_URL config_OUT_DIR url mode item sched inbox
     = (replicate (length inbox) ETaskDone, Blocked).
Proof.
  intros Hin. unfold Ticker.run, Image.run.
  by rewrite (ticker_intake_waits _ _ Hin), (image_intake_waits _ _ Hin).
Qed.

Lemma acks_concat_ticker (http : string -> response) (base_url out_dir : string)
    (tickers : list task) :
  acks (concat (trace <$> map (Ticker.aio_process http base_url out_dir) tickers)) = 0%nat.
Proof.
  induction tickers as [|t tickers IH]; [done|].
  rewrite map_cons, fmap_cons, concat_cons, acks_app, IH, ticker_aio_process_cases.
  by destruct (answered_ok http base_url t && _).
Qed.

Lemma acks_ticker_sync (http : string -> response) (base_url out_dir : string)
    (tickers : list task) :
  acks (trace (Ticker.sync_process http base_url out_dir tickers)) = 0%nat.
Proof.
  induction tickers as [|t tickers IH]; [done|].
  rewrite ticker_sync_process_cons. simpl. rewrite acks_app, IH, ticker_sync_one_cases.
  by destruct (answered_ok http base_url t).
Qed.

(** On a disk that refuses nothing, a ticker worker that is handed its
    ['done'] calls [task_done] once for every [get] it made. *)
Lemma ticker_acknowledges_every_get_model
    (http : string -> response) (base_url out_dir mode : string)
    (sched : list nat) (pre post : list task) :
  Forall not_done pre ->
  acks (trace (Ticker.run http base_url out_dir mode sched (pre ++ DONE :: post)))
    = S (length pre).
Proof.
  intros Hpre. unfold Ticker.run.
  rewrite (ticker_intake_stops pre post [] Hpre), bind_returned. simpl.
  rewrite acks_app, acks_replicate.
  destruct (String.eqb mode "async").
  - destruct (ticker_asyncio_sessions_shape http base_url out_dir sched pre)
      as (work & rs & -> & Hperm & _ & _).
    simpl. rewrite !acks_app, acks_map_EPut, (acks_Permutation _ _ Hperm),
      acks_concat_ticker. simpl. lia.
  - destruct (ticker_sync_process_puts http base_url out_dir pre) as [_ Hr].
    pose proof (acks_ticker_sync http base_url out_dir pre) as Ha.
    destruct (Ticker.sync_process _ _ _ _) as [tr o]. simpl in Hr, Ha. subst o.
    simpl. rewrite acks_app, Ha. simpl. lia.
Qed.

(** ** How [gather] ends *)

Section GatherOutcome.
Context {A : Type}.
Implicit Types (pend : list (M A)) (sched : list nat).

Lemma finish_returned_all_return pend tr vals :
  finish pend = (tr, Returned vals) -> all_return pend vals.
Proof.
  revert tr vals. induction pend as [|[ctr o] pend IH]; intros tr vals; simpl.
  - intros [= _ <-]. constructor.
  - destruct o as [a| |]; [|done..].
    destruct (finish pend) as [tr' [rest| |]] eqn:Hf; simpl; [|done..].
    intros [= _ <-]. constructor; [done|]. by apply (IH tr').
Qed.

(** If [gather] returns, every coroutine has returned. *)
Lemma gather_returned_all_return sched pend tr vals :
  gather sched pend = (tr, Returned vals) -> all_return pend vals.
Proof.
  revert pend tr. induction sched as [|i sched IH]; intros pend tr; simpl;
    destruct (first_raised pend); try done.
  - apply finish_returned_all_return.
  - destruct (pend !! i) as [[[|e later] o]|] eqn:Hi; [by apply IH| |by apply IH].
    destruct (gather sched (<[i := (later, o)]> pend)) as [tr' o'] eqn:Hg.
    simpl. intros [= _ ->].
    apply IH in Hg.
    rewrite <- (list_insert_id pend i _ Hi).
    rewrite <- (list_insert_insert_eq pend i (e :: later, o) (later, o)).
    apply (all_return_step _ _ i later (e :: later) o Hg).
    apply list_lookup_insert_eq. by apply lookup_lt_Some in Hi.
Qed.

Lemma first_raised_elem pend ex :
  first_raised pend = Some ex -> exists c, c ∈ pend /\ result c = Raised ex.
Proof.
  induction pend as [|[tr o] pend IH]; [done|]. simpl.
  destruct tr as [|e tr].
  - destruct o as [a|e'|].
    + intros (c & Hc & Hr)%IH. exists c. split; [by apply list_elem_of_further | done].
    + intros [= ->]. exists ([], Raised ex). split; [apply list_elem_of_here | done].
    + intros (c & Hc & Hr)%IH. exists c. split; [by apply list_elem_of_further | done].
  - intros (c & Hc & Hr)%IH. exists c. split; [by apply list_elem_of_further | done].
Qed.

Lemma finish_returns_or_raises (ex : exn) pend :
  Forall (returns_or_raises ex) pend -> returns_or_raises ex (finish pend).
Proof.
  induction 1 as [|[tr o] pend Hc _ IH]; [done|].
  unfold returns_or_raises in *. simpl in *.
  destruct o as [a| |]; [|done..].
  by destruct (finish pend) as [tr' [rest| |]].
Qed.

(** [gather] over coroutines that return or raise [ex] returns or raises
    [ex]. *)
Lemma gather_returns_or_raises (ex : exn) sched pend :
  Forall (returns_or_raises ex) pend -> returns_or_raises ex (gather sched pend).
Proof.
  revert pend. induction sched as [|i sched IH]; intros pend Hall; simpl;
    destruct (first_raised pend) as [e|] eqn:Hfr.
  - apply first_raised_elem in Hfr as (c & Hc & Hr).
    pose proof (proj1 (Forall_forall _ _) Hall c Hc) as H.
    unfold returns_or_raises in *. rewrite Hr in H. by simpl.
  - by apply finish_returns_or_raises.
  - apply first_raised_elem in Hfr as (c & Hc & Hr).
    pose proof (proj1 (Forall_forall _ _) Hall c Hc) as H.
    unfold returns_or_raises in *. rewrite Hr in H. by simpl.
  - destruct (pend !! i) as [[[|e later] o]|] eqn:Hi; [by apply IH| |by apply IH].
    assert (Forall (returns_or_raises ex) (<[i := (later, o)]> pend)) as Hall'.
    { apply Forall_insert; [done|]. exact (Forall_lookup_1 _ _ _ _ Hall Hi). }
    specialize (IH _ Hall'). unfold returns_or_raises in *.
    by destruct (gather sched (<[i := (later, o)]> pend)) as [tr' o'].
Qed.

End GatherOutcome.

(** ** The image worker, image by image *)

Section ImageItems.
Variable http : string -> response.
Variable img_srcs : string -> option (list string).
Variables config_URL config_OUT_DIR url item : string.

Local Abbreviation aio_process := (Image.aio_process http config_OUT_DIR).
Local Abbreviation listing_async := (Image.listing_async http img_srcs config_URL item).
Local Abbreviation listings_async := (Image.listings_async http img_srcs config_URL item).
Local Abbreviation asyncio_sessions :=
  (Image.asyncio_sessions http img_srcs config_URL config_OUT_DIR item).
Local Abbreviation sync_image := (Image.sync_image http).
Local Abbreviation sync_page := (Image.sync_page http img_srcs url item).
Local Abbreviation sync_process := (Image.sync_process http img_srcs url item).

Lemma image_aio_process_cases (image_url : string) :
  let path := config_OUT_DIR +:+ "/" +:+ PyStr.last_segment image_url in
  aio_process image_url "image"
  = if image_ok http image_url then
      if PyStr.is_empty (body (http image_url))
      then ([EGet image_url], Returned (image_record image_url))
      else ([EGet image_url; EOpen path ModeWB; EWrite path (body (http image_url))],
            Returned (image_record image_url))
    else ([EGet image_url; EOpen path ModeWB], Raised TypeError).
Proof.
  unfold Image.aio_process, Image.get, image_ok, image_record. simpl.
  destruct (status (http image_url) =? 200); simpl; [|done].
  by destruct (body (http image_url)).
Qed.

Lemma image_coroutines_return_or_raise (urls : list string) :
  Forall (returns_or_raises TypeError) (map (fun u => aio_process u "image") urls).
Proof.
  apply Forall_map, Forall_forall. intros u _.
  unfold returns_or_raises. rewrite image_aio_process_cases. simpl.
  destruct (image_ok http u); [|done].
  by destruct (PyStr.is_empty _).
Qed.

Lemma image_coroutines_no_put (urls : list string) :
  Forall (fun c => Forall not_put (trace c)) (map (fun u => aio_process u "image") urls).
Proof.
  apply Forall_map, Forall_forall. intros u _. apply image_aio_process_no_put.
Qed.


Lemma image_coroutines_all_return (urls : list string) :
  Forall (fun u => image_ok http u = true) urls ->
  all_return (map (fun u => aio_process u "image") urls) (map image_record urls).
Proof.
  induction 1 as [|u urls Hu _ IH]; [constructor|].
  constructor; [|done].
  rewrite image_aio_process_cases, Hu. by destruct (PyStr.is_empty _).
Qed.

(** On a disk that refuses nothing: when every image of the batch is
    answered with 200 the async session returns and puts one record per
    image, in the order of the listings, whatever the schedule. *)
Lemma image_async_all_good_records_model
    (sched : list nat) (pages : list task) (urls : list string) :
  result (listings_async pages) = Returned urls ->
  Forall (fun u => image_ok http u = true) urls ->
  result (asyncio_sessions sched pages) = Returned tt
  /\ puts (trace (asyncio_sessions sched pages)) = map image_record urls.
Proof.
  intros Hl Hok. unfold Image.asyncio_sessions.
  pose proof (image_listings_no_put http img_srcs config_URL item pages) as Hlp.
  destruct (listings_async pages) as [ltr o]. simpl in Hl, Hlp. subst o.
  rewrite bind_returned.
  destruct (gather_all_return sched _ _ (image_coroutines_all_return urls Hok))
    as (work & Hg & _).
  pose proof (Forall_gather not_put sched _ (image_coroutines_no_put urls)) as Hnp.
  rewrite Hg in Hnp |- *. simpl in Hnp.
  rewrite bind_returned, for_each_put. simpl. split; [done|].
  rewrite !puts_app, puts_map_EPut.
  apply puts_nil_Forall in Hlp, Hnp. by rewrite Hlp, Hnp.
Qed.

Lemma image_listing_async_cases (page : task) :
  listing_async page
  = ([EGet (listing_url config_URL item page)],
     match img_srcs (listing_doc http (listing_url config_URL item page)) with
     | Some srcs => Returned (Image.wanted srcs)
     | None => Raised ParserError
     end).
Proof.
  unfold Image.listing_async, Image.get, listing_url, listing_doc. simpl.
  destruct (status (http _) =? 200); simpl;
    destruct (img_srcs _); simpl; by rewrite ?app_nil_r.
Qed.

(** X10.  In async mode the listings are all requested and parsed before
    the first image is requested, and a listing that the parser rejects
    ends the session there: with [pre] the pages before it, the worker has
    requested the listings of [pre] and of that page and nothing else, and
    raises [ParserError] without a record. *)
Theorem image_async_bad_listing_aborts
    (sched : list nat) (pre post : list task) (page : task) :
  Forall (fun p => img_srcs (listing_doc http (listing_url config_URL item p)) <> None) pre ->
  img_srcs (listing_doc http (listing_url config_URL item page)) = None ->
  asyncio_sessions sched (pre ++ page :: post)
  = (map (fun p => EGet (listing_url config_URL item p)) (pre ++ [page]),
     Raised ParserError).
Proof.
  intros Hpre Hpage. unfold Image.asyncio_sessions.
  assert (listings_async (pre ++ page :: post)
          = (map (fun p => EGet (listing_url config_URL item p)) (pre ++ [page]),
             Raised ParserError)) as ->; [|done].
  induction Hpre as [|p pre Hp _ IH]; simpl.
  - by rewrite image_listing_async_cases, Hpage.
  - rewrite image_listing_async_cases.
    destruct (img_srcs (listing_doc http (listing_url config_URL item p))); [|done].
    rewrite bind_returned, IH. done.
Qed.

End ImageItems.

Section ImageSync.
Variable http : string -> response.
Variable img_srcs : string -> option (list string).
Variables url item : string.

Local Abbreviation ok := (image_ok http).
Local Abbreviation images := (page_images http img_srcs url item).
Local Abbreviation sync_image := (Image.sync_image http).
Local Abbreviation sync_page := (Image.sync_page http img_srcs url item).
Local Abbreviation sync_process := (Image.sync_process http img_srcs url item).

Lemma image_sync_image_cases (page : task) (image_url : string) :
  let path := "images/" +:+ PyStr.last_segment image_url in
  sync_image page image_url
  = if ok image_url
    then ([EGet image_url; EOpen path ModeWB; EWrite path (body (http image_url));
           EPut (succeeded page)], Returned tt)
    else ([EGet image_url], Returned tt).
Proof.
  unfold Image.sync_image, image_ok, succeeded. simpl.
  by destruct (status (http image_url) =? 200).
Qed.

Lemma image_sync_images (page : task) (urls : list string) :
  result (for_each (sync_image page) urls) = Returned tt
  /\ gets (trace (for_each (sync_image page) urls)) = urls
  /\ puts (trace (for_each (sync_image page) urls))
     = map (fun _ => succeeded page) (filter (fun u => ok u = true) urls)
  /\ opens (trace (for_each (sync_image page) urls))
     = map (fun u => "images/" +:+ PyStr.last_segment u)
           (filter (fun u => ok u = true) urls).
Proof.
  induction urls as [|u urls (IHr & IHg & IHp & IHo)]; [done|].
  rewrite for_each_cons, image_sync_image_cases, filter_cons.
  destruct (decide (ok u = true)) as [Hu|Hu].
  - rewrite Hu, bind_returned. simpl. by rewrite IHg, IHp, IHo.
  - apply not_true_is_false in Hu. rewrite Hu, bind_returned. simpl.
    by rewrite IHg, IHp, IHo.
Qed.

Lemma image_sync_page_parsed (page : task) (srcs : list string) :
  img_srcs (body (http (listing_url url item page))) = Some srcs ->
  sync_page page
  = (EGet (listing_url url item page) :: trace (for_each (sync_image page) (Image.wanted srcs)),
     Returned tt).
Proof.
  intros Hs. unfold Image.sync_page. fold (listing_url url item page).
  cbv zeta. unfold emit at 1. rewrite bind_returned, Hs.
  destruct (image_sync_images page (Image.wanted srcs)) as (Hr & _).
  simpl. by rewrite Hr.
Qed.

(** On a disk that refuses nothing and with every body written in one
    piece: the sync records and files of a batch whose listings parse. *)
Lemma image_sync_records_model (pages : list task) :
  Forall (fun p => img_srcs (body (http (listing_url url item p))) <> None) pages ->
  result (sync_process pages) = Returned tt
  /\ puts (trace (sync_process pages))
     = flat_map (fun p => map (fun _ => succeeded p)
                              (filter (fun u => ok u = true) (images p))) pages
  /\ opens (trace (sync_process pages))
     = flat_map (fun p => map (fun u => "images/" +:+ PyStr.last_segment u)
                              (filter (fun u => ok u = true) (images p))) pages.
Proof.
  unfold Image.sync_process, page_images.
  induction 1 as [|p pages Hp _ (IHr & IHp & IHo)]; [done|].
  rewrite for_each_cons.
  destruct (img_srcs (body (http (listing_url url item p)))) as [srcs|] eqn:Hs; [|done].
  rewrite (image_sync_page_parsed p srcs Hs), bind_returned. simpl.
  rewrite Hs.
  destruct (image_sync_images p (Image.wanted srcs)) as (_ & _ & Hpp & Hpo).
  rewrite puts_app, opens_app, Hpp, Hpo, IHp, IHo. done.
Qed.


End ImageSync.

(** ** File names *)

Lemma contains_slash_cons (c : ascii) (s : string) :
  PyStr.contains "/" (String c s) = Ascii.eqb "/" c || PyStr.contains "/" s.
Proof.
  change (PyStr.contains "/" (String c s))
    with ((if Ascii.eqb "/" c then PyStr.starts_with "" s else false)
          || PyStr.contains "/" s).
  destruct (Ascii.eqb "/" c); [by destruct s | done].
Qed.

Lemma no_slash_snoc (cur : string) (c : ascii) :
  PyStr.contains "/" cur = false -> Ascii.eqb c "/" = false ->
  PyStr.contains "/" (cur +:+ String c "") = false.
Proof.
  intros Hcur Hc. induction cur as [|x cur IH].
  - rewrite append_nil_l, contains_slash_cons, Ascii.eqb_sym, Hc. done.
  - rewrite append_cons, contains_slash_cons.
    rewrite contains_slash_cons in Hcur.
    apply orb_false_iff in Hcur as [-> Hcur]. by rewrite IH.
Qed.

Lemma split_go_nonempty (sep : ascii) (cur s : string) :
  PyStr.split_go sep cur s <> [].
Proof.
  revert cur. induction s as [|c s IH]; intros cur; simpl; [done|].
  destruct (Ascii.eqb c sep); [done | apply IH].
Qed.

Lemma last_cons_nonempty {A} (a d : A) (l : list A) :
  l <> [] -> List.last (a :: l) d = List.last l d.
Proof. by destruct l. Qed.

Lemma split_go_last (cur s : string) :
  PyStr.contains "/" cur = false ->
  exists front,
    cur +:+ s = front +:+ List.last (PyStr.split_go "/" cur s) ""
    /\ PyStr.contains "/" (List.last (PyStr.split_go "/" cur s) "") = false
    /\ (front = "" \/ exists q, front = q +:+ "/").
Proof.
  revert cur. induction s as [|c s IH]; intros cur Hcur; simpl.
  - exists "". rewrite append_nil_r, append_nil_l. auto.
  - destruct (Ascii.eqb c "/") eqn:Hc.
    + apply Ascii.eqb_eq in Hc as ->.
      rewrite last_cons_nonempty by apply split_go_nonempty.
      destruct (IH "" eq_refl) as (front & Heq & Hno & Hfront).
      rewrite append_nil_l in Heq.
      exists (cur +:+ String "/" front). split; [|split; [done|right]].
      * by rewrite append_assoc, append_cons, <- Heq.
      * destruct Hfront as [->|(q & ->)].
        -- by exists cur.
        -- exists (cur +:+ String "/" q). by rewrite append_assoc, append_cons.
    + destruct (IH _ (no_slash_snoc cur c Hcur Hc)) as (front & Heq & Hno & Hfront).
      exists front. split; [|done].
      by rewrite <- Heq, append_assoc, append_cons, append_nil_l.
Qed.

(** X13.  The file name taken from an image URL, [url.split("/")[-1]], is
    the part of the URL after its last slash: it holds no slash itself, and
    the URL is this name preceded by nothing or by something that ends in a
    slash.  So every image file lies directly in the chosen directory. *)
Theorem last_segment_is_slash_free_suffix (image_url : string) :
  exists front,
    image_url = front +:+ PyStr.last_segment image_url
    /\ PyStr.contains "/" (PyStr.last_segment image_url) = false
    /\ (front = "" \/ exists q, front = q +:+ "/").
Proof.
  unfold PyStr.last_segment, PyStr.split.
  destruct (split_go_last "" image_url eq_refl) as (front & Heq & Hno & Hfront).
  exists front. by rewrite append_nil_l in Heq.
Qed.

(** * Further properties of the protocol *)

(** ** Who gets which task *)

Lemma concat_batches_fresh (n : nat) : concat (batch <$> replicate n fresh) = [].
Proof. induction n as [|n IH]; [done | exact IH]. Qed.

Lemma concat_insert_snoc {A} (ls : list (list A)) (i : nat) (l : list A) (x : A) :
  ls !! i = Some l -> concat (<[i := l ++ [x]]> ls) ≡ₚ concat ls ++ [x].
Proof.
  revert i. induction ls as [|l0 ls IH]; intros [|i] Hi; simplify_eq/=.
  - rewrite <- !app_assoc. apply Permutation_app_head, Permutation_app_comm.
  - by rewrite (IH i Hi), app_assoc.
Qed.

Lemma handed_out_initial (tasks : list task) (n : nat) :
  handed_out tasks (initial tasks n).
Proof.
  exists [], tasks, n. simpl. rewrite concat_batches_fresh.
  repeat split; [done| |right].
  - apply Forall_replicate. apply sublist_nil_l.
  - by apply Forall_replicate.
Qed.

Lemma handed_out_step (tasks : list task) (s s' : system) :
  Forall not_done tasks -> handed_out tasks s -> step s s' -> handed_out tasks s'.
Proof.
  intros Htasks (taken & rest & k & Hsplit & Hstream & Hperm & Hsub & Hrest) Hstep.
  destruct Hstep as [t p q ws | i w t p q ws Hi Hw]; simpl in *.
  - exists taken, rest, k. simpl. by rewrite <- app_assoc.
  - destruct rest as [|r rest]; simpl in Hstream.
    + destruct k as [|k]; simpl in Hstream; [done|].
      injection Hstream as -> Hqp.
      exists taken, [], k. simpl. unfold intake_turn. simpl.
      repeat split; [done|done| | |by left].
      * rewrite list_fmap_insert. simpl.
        rewrite list_insert_id; [done|]. by rewrite list_lookup_fmap, Hi.
      * apply Forall_insert; [done|]. simpl.
        exact (Forall_lookup_1 _ _ _ _ Hsub Hi).
    + injection Hstream as -> Hqp.
      assert (not_done r) as Hr.
      { rewrite Hsplit in Htasks. apply Forall_app in Htasks as [_ Htasks].
        by apply Forall_cons in Htasks as [? _]. }
      destruct Hrest as [|Hall]; [done|].
      exists (taken ++ [r]), rest, k. simpl. unfold intake_turn.
      unfold not_done in Hr. rewrite Hr. simpl.
      repeat split.
      * by rewrite <- app_assoc.
      * done.
      * rewrite list_fmap_insert. simpl.
        rewrite (concat_insert_snoc _ i (batch w)) by (by rewrite list_lookup_fmap, Hi).
        by rewrite Hperm.
      * apply Forall_insert.
        -- eapply Forall_impl; [exact Hsub|]. intros v Hv. simpl in Hv.
           by apply sublist_inserts_r.
        -- simpl. apply sublist_app; [|done].
           exact (Forall_lookup_1 _ _ _ _ Hsub Hi).
      * right. by apply Forall_insert.
Qed.

Lemma handed_out_reachable (tasks : list task) (n : nat) (s : system) :
  Forall not_done tasks -> rtc step (initial tasks n) s -> handed_out tasks s.
Proof.
  intros Htasks Hrtc.
  pose proof (handed_out_initial tasks n) as H0.
  induction Hrtc as [|s1 s2 s3 Hstep _ IH]; [done|].
  apply IH. by apply (handed_out_step tasks s1).
Qed.

(** X14.  While the workers drain the queue, no task is taken twice and
    every worker holds its tasks in the order in which they were put: in
    every reachable state the batches together are a sub-multiset of the
    tasks, and each batch is a subsequence of the task list. *)
Theorem tasks_taken_once_in_order (tasks : list task) (n : nat) (s : system) :
  Forall not_done tasks ->
  rtc step (initial tasks n) s ->
  concat (batch <$> workers s) ⊆+ tasks
  /\ Forall (fun w => batch w `sublist_of` tasks) (workers s).
Proof.
  intros Htasks Hs.
  destruct (handed_out_reachable tasks n s Htasks Hs)
    as (taken & rest & k & -> & _ & Hperm & Hsub & _).
  split.
  - rewrite Hperm. by apply submseteq_inserts_r.
  - eapply Forall_impl; [exact Hsub|]. intros w Hw. simpl in Hw.
    by apply sublist_inserts_r.
Qed.

Lemma every_task_in_one_batch_helper (tasks : list task) (n : nat) (s : system) :
  Forall not_done tasks ->
  (1 <= n)%nat ->
  rtc step (initial tasks n) s ->
  (forall s', ~ step s s') ->
  queue s = [] /\ pending s = [] /\ concat (batch <$> workers s) ≡ₚ tasks.
Proof.
  intros Htasks Hn Hs Hnf.
  pose proof (protocol_inv_reachable tasks n s Htasks Hs) as Hinv.
  destruct (protocol_inv_final n s Hinv Hnf) as (Hstopped & Hpend & Hqueue).
  destruct Hinv as (_ & _ & _ & _ & Hlen).
  destruct (handed_out_reachable tasks n s Htasks Hs)
    as (taken & rest & k & -> & Hstream & Hperm & _ & Hrest).
  rewrite Hpend, app_nil_r in Hstream.
  assert (rest = []) as ->.
  { destruct Hrest as [|Hall]; [done|].
    destruct (workers s) as [|w ws]; [simpl in Hlen; lia|].
    apply Forall_cons in Hstopped as [[Hc _] _].
    apply Forall_cons in Hall as [Hc' _]. congruence. }
  simpl in Hstream. rewrite app_nil_r.
  split; [|done].
  destruct k as [|k]; [done|].
  rewrite Hstream in Hqueue. simpl in Hqueue.
  by apply Forall_cons in Hqueue as [? _].
Qed.


(** ** The coordinators, step by step *)

Lemma starts_app (tr1 tr2 : list event) : starts (tr1 ++ tr2) = (starts tr1 + starts tr2)%nat.
Proof.
  induction tr1 as [|e tr1 IH]; [done|].
  destruct e; simpl; by rewrite ?IH.
Qed.

Lemma starts_replicate (n : nat) : starts (replicate n EStart) = n.
Proof. induction n; simpl; congruence. Qed.

Lemma filter_mentions_failed_bound (rs : list string) :
  (length (filter mentions_failed rs) <= length rs)%nat.
Proof. apply length_filter. Qed.

Lemma ticker_main_run_facts (fetch_count process_count cpu_count : Z)
    (tickers_list : list task) (results : list string) :
  let n := range_len fetch_count in
  let workers := range_len (TickerMain.effective_process_count process_count cpu_count) in
  let k := Z.of_nat (length (filter mentions_failed (take n results))) in
  (n <= length results)%nat ->
  TickerMain.main fetch_count process_count cpu_count tickers_list results
  = (replicate workers EStart ++ map ETaskPut (take n tickers_list)
       ++ replicate workers (ETaskPut DONE) ++ map EResultGet (take n results),
     Returned (fetch_count - k, k))
  /\ 0 <= k <= Z.of_nat n.
Proof.
  intros n workers k Hn. subst k. unfold TickerMain.main. fold workers.
  rewrite !for_each_const, length_seq, bind_returned, enqueue_take, Z.sub_0_r.
  fold n. rewrite !bind_returned, (count_failed_enough n results Hn). simpl.
  rewrite !app_nil_r. split; [done|].
  pose proof (filter_mentions_failed_bound (take n results)) as Hb.
  rewrite length_take in Hb. lia.
Qed.

(** X16.  The ticker coordinator, given at least [fetch_count] records:
    it starts all its workers before it puts anything, puts the first
    [fetch_count] entries of the ticker list (fewer when the list is
    shorter) in list order, then one ['done'] per worker, then reads exactly
    [fetch_count] records and returns.  Its failure count is the number of
    records read that contain ['failed'], its success count is the rest. *)
Theorem ticker_main_run (fetch_count process_count cpu_count : Z)
    (tickers_list : list task) (results : list string) :
  let n := range_len fetch_count in
  let workers := range_len (TickerMain.effective_process_count process_count cpu_count) in
  let k := Z.of_nat (length (filter mentions_failed (take n results))) in
  (n <= length results)%nat ->
  TickerMain.main fetch_count process_count cpu_count tickers_list results
  = (replicate workers EStart ++ map ETaskPut (take n tickers_list)
       ++ replicate workers (ETaskPut DONE) ++ map EResultGet (take n results),
     Returned (fetch_count - k, k))
  /\ 0 <= k <= Z.of_nat n.
Proof. apply ticker_main_run_facts. Qed.

(** X17.  Asked for no tickers ([fetch_count <= 0]) the ticker coordinator
    puts nothing but the ['done'] items, reads no record and returns at
    once, reporting [fetch_count] successes (a negative number for a
    negative count) and no failure. *)
Theorem ticker_main_nothing_to_fetch (fetch_count process_count cpu_count : Z)
    (tickers_list : list task) (results : list string) :
  let workers := range_len (TickerMain.effective_process_count process_count cpu_count) in
  fetch_count <= 0 ->
  TickerMain.main fetch_count process_count cpu_count tickers_list results
  = (replicate workers EStart ++ replicate workers (ETaskPut DONE),
     Returned (fetch_count, 0)).
Proof.
  intros workers Hfc.
  assert (range_len fetch_count = 0%nat) as Hn by (unfold range_len; lia).
  destruct (ticker_main_run_facts fetch_count process_count cpu_count tickers_list results)
    as [-> _]; [rewrite Hn; lia|].
  fold workers. rewrite Hn. simpl. by rewrite app_nil_r, Z.sub_0_r.
Qed.

(** X18.  A ticker coordinator asked for no worker ([--parallel] zero or
    negative) starts none and puts no ['done']: the tickers it puts are never
    taken, and unless it was asked for no ticker either it waits for a
    record that nobody can produce. *)
Theorem ticker_main_without_workers (fetch_count process_count cpu_count : Z)
    (tickers_list : list task) :
  let m := TickerMain.main fetch_count process_count cpu_count tickers_list [] in
  process_count <= 0 -> 1 <= cpu_count -> 1 <= fetch_count ->
  starts (trace m) = 0%nat
  /\ task_puts (trace m) = take (range_len fetch_count) tickers_list
  /\ result m = Blocked.
Proof.
  intros m Hpc Hcpu Hfc. subst m.
  destruct (ticker_main_queues fetch_count process_count cpu_count tickers_list [])
    as (Hputs & _ & Hblocked).
  assert (range_len (TickerMain.effective_process_count process_count cpu_count) = 0%nat)
    as Hw.
  { unfold TickerMain.effective_process_count, range_len.
    destruct (Z.gtb_spec process_count cpu_count); lia. }
  rewrite Hw in Hputs. simpl in Hputs. rewrite app_nil_r in Hputs.
  split; [|split; [done|]].
  - unfold TickerMain.main.
    rewrite !for_each_const, length_seq, Hw, bind_returned, enqueue_take.
    rewrite !bind_returned. simpl.
    rewrite !starts_app.
    assert (forall ts, starts (map ETaskPut ts) = 0%nat) as ->
      by (intros ts; induction ts as [|t ts IH]; [done | exact IH]).
    assert (range_len fetch_count = S (range_len (fetch_count - 1))) as ->
      by (unfold range_len; lia).
    done.
  - apply Hblocked. simpl. unfold range_len. lia.
Qed.

(** X19.  [image_scraper.py] cannot get past its second statement: its
    parser defines [--process], and [main] reads [args.parallel].  Whatever
    the command line, [main] raises [AttributeError] before it requests
    anything or starts a worker.  [ticker.py], whose parser defines
    [--count] and [--parallel], goes on with the two values given. *)
Theorem image_main_reads_missing_attribute {A} (mode : string) (process : Z)
    (count parallel : Z) (tickerconf outdir : string)
    (image_rest : Cli.pyval -> A) (ticker_rest : Cli.pyval -> Cli.pyval -> A) :
  Cli.image_main mode process image_rest = inl (Cli.AttributeError "parallel")
  /\ Cli.ticker_main mode count parallel tickerconf outdir ticker_rest
     = inr (ticker_rest (Cli.VInt count) (Cli.VInt parallel)).
Proof. split; reflexivity. Qed.

(** ** Two images with one name *)


(** ** The ticker pipeline as a whole *)

Lemma ticker_dispatch_puts_length (http : string -> response)
    (base_url out_dir mode : string) (sched : list nat) (tickers : list task) :
  length (puts (trace (ticker_dispatch http base_url out_dir mode sched tickers)))
  = length tickers.
Proof.
  unfold ticker_dispatch. destruct (String.eqb mode "async").
  - apply ticker_asyncio_sessions_puts.
  - apply ticker_sync_process_puts.
Qed.

Lemma length_concat_batches (ws : list worker) :
  length (concat (batch <$> ws)) = sum_list (map (fun w => length (batch w)) ws).
Proof.
  induction ws as [|w ws IH]; [done|].
  rewrite fmap_cons, concat_cons, length_app, IH. done.
Qed.

(** The ticker pipeline from end to end on a disk that refuses nothing. *)
Lemma ticker_pipeline_completes_model
    (http : string -> response) (base_url out_dir mode : string)
    (fetch_count process_count cpu_count : Z) (tickers_list : list task)
    (s : system) (records : list (list string)) (results : list string) :
  let tasks := take (range_len fetch_count) tickers_list in
  let n := range_len (TickerMain.effective_process_count process_count cpu_count) in
  Forall not_done tasks ->
  (range_len fetch_count <= length tickers_list)%nat ->
  (1 <= n)%nat ->
  rtc step (initial tasks n) s ->
  (forall s', ~ step s s') ->
  Forall2 (fun w rs => exists sched,
             rs = puts (trace (ticker_dispatch http base_url out_dir mode sched (batch w))))
          (workers s) records ->
  results ≡ₚ concat records ->
  task_puts (trace (TickerMain.main fetch_count process_count cpu_count tickers_list results))
    = pending (initial tasks n)
  /\ length results = range_len fetch_count
  /\ exists k,
       result (TickerMain.main fetch_count process_count cpu_count tickers_list results)
         = Returned (fetch_count - k, k)
       /\ 0 <= k <= Z.of_nat (range_len fetch_count).
Proof.
  intros tasks n Htasks Hlist Hn Hs Hnf Hrec Hres.
  destruct (every_task_in_one_batch_helper tasks n s Htasks Hn Hs Hnf) as (_ & _ & Hperm).
  assert (length results = range_len fetch_count) as Hlen.
  { rewrite Hres.
    assert (length (concat records) = length (concat (batch <$> workers s))) as ->.
    { rewrite length_concat_batches.
      clear -Hrec. induction Hrec as [|w rs ws rss [sched ->] _ IH]; [done|].
      simpl. rewrite length_app, IH, ticker_dispatch_puts_length. done. }
    rewrite Hperm. subst tasks. rewrite length_take. lia. }
  split; [|split; [done|]].
  - by destruct (ticker_main_queues fetch_count process_count cpu_count tickers_list results)
      as [-> _].
  - destruct (ticker_main_run_facts fetch_count process_count cpu_count tickers_list results)
      as [-> Hk]; [lia|].
    eexists. split; [reflexivity | exact Hk].
Qed.

(** * The further properties on sample runs *)



Lemma worker_waits_for_done_witness :
  Forall not_done [TStr "AAA"; TInt 7]
  /\ Ticker.run Sample.ticker_http "http://x/" "out" "async" [] [TStr "AAA"; TInt 7]
     = (replicate (length [TStr "AAA"; TInt 7]) ETaskDone, Blocked)
  /\ Image.run Sample.image_http Sample.img_srcs "http://s/" "out" "http://s/" "async" "cat"
       [] [TStr "AAA"; TInt 7]
     = (replicate (length [TStr "AAA"; TInt 7]) ETaskDone, Blocked).
Proof.
  assert (Forall not_done [TStr "AAA"; TInt 7]) as H.
  { apply Forall_cons_2; [reflexivity|].
    apply Forall_cons_2; [reflexivity | apply Forall_nil_2]. }
  split; [exact H|].
  exact (worker_waits_for_done Sample.ticker_http Sample.img_srcs "http://x/" "out"
           "http://s/" "out" "http://s/" "async" "cat" [] [TStr "AAA"; TInt 7] H).
Defined.


Lemma image_async_bad_listing_aborts_witness :
  Image.asyncio_sessions Sample.image_http Scenario.strict_srcs "http://s/" "out" "cat"
    [] ([TInt 1] ++ TInt 2 :: [TInt 3])
  = (map (fun p => EGet (listing_url "http://s/" "cat" p)) ([TInt 1] ++ [TInt 2]),
     Raised ParserError).
Proof.
  assert (Forall (fun p => Scenario.strict_srcs
                             (listing_doc Sample.image_http (listing_url "http://s/" "cat" p))
                           <> None) [TInt 1]) as Hpre.
  { apply Forall_cons_2; [|apply Forall_nil_2].
    intros H. vm_compute in H. discriminate H. }
  assert (Scenario.strict_srcs
            (listing_doc Sample.image_http (listing_url "http://s/" "cat" (TInt 2))) = None)
    as Hpage by (vm_compute; reflexivity).
  exact (image_async_bad_listing_aborts Sample.image_http Scenario.strict_srcs "http://s/"
           "out" "cat" [] [TInt 1] [TInt 3] (TInt 2) Hpre Hpage).
Defined.


Lemma drained_reachable : rtc step (initial [TStr "AAA"] 1) Scenario.drained.
Proof.
  eapply rtc_l; [apply step_put|].
  eapply rtc_l; [exact (step_get 0 fresh (TStr "AAA") [DONE] [] [fresh] eq_refl eq_refl)|].
  eapply rtc_l; [apply step_put|].
  eapply rtc_l; [|apply rtc_refl].
  exact (step_get 0 {| collecting := true; batch := [TStr "AAA"]; sentinels := 0 |}
           DONE [] [] [ {| collecting := true; batch := [TStr "AAA"]; sentinels := 0 |} ]
           eq_refl eq_refl).
Defined.

Lemma drained_final (s' : system) : ~ step Scenario.drained s'.
Proof. intros H. inversion H. Defined.

Lemma tasks_taken_once_in_order_witness :
  Forall not_done [TStr "AAA"]
  /\ concat (batch <$> workers Scenario.drained) ⊆+ [TStr "AAA"]
  /\ Forall (fun w => batch w `sublist_of` [TStr "AAA"]) (workers Scenario.drained).
Proof.
  assert (Forall not_done [TStr "AAA"]) as H.
  { apply Forall_cons_2; [reflexivity | apply Forall_nil_2]. }
  split; [exact H|].
  exact (tasks_taken_once_in_order [TStr "AAA"] 1 Scenario.drained H drained_reachable).
Defined.


Lemma ticker_main_run_witness :
  (range_len 2 <= length ["AAA fetch succeeded"; "BBB fetch failed"; "late"])%nat
  /\ TickerMain.main 2 8 4 [TStr "AAA"; TStr "BBB"; TStr "CCC"]
       ["AAA fetch succeeded"; "BBB fetch failed"; "late"]
     = (replicate 4 EStart ++ map ETaskPut [TStr "AAA"; TStr "BBB"]
          ++ replicate 4 (ETaskPut DONE)
          ++ map EResultGet ["AAA fetch succeeded"; "BBB fetch failed"],
        Returned (1, 1)).
Proof.
  assert (range_len 2 <= length ["AAA fetch succeeded"; "BBB fetch failed"; "late"])%nat
    as H by (vm_compute; lia).
  split; [exact H|].
  exact (proj1 (ticker_main_run 2 8 4 [TStr "AAA"; TStr "BBB"; TStr "CCC"]
                  ["AAA fetch succeeded"; "BBB fetch failed"; "late"] H)).
Defined.

Lemma ticker_main_nothing_to_fetch_witness :
  -1 <= 0
  /\ TickerMain.main (-1) 2 4 [TStr "AAA"] []
     = (replicate 2 EStart ++ replicate 2 (ETaskPut DONE), Returned (-1, 0)).
Proof.
  assert (-1 <= 0) as H by lia.
  split; [exact H|].
  exact (ticker_main_nothing_to_fetch (-1) 2 4 [TStr "AAA"] [] H).
Defined.

Lemma ticker_main_without_workers_witness :
  0 <= 0 /\ 1 <= 4 /\ 1 <= 1
  /\ starts (trace (TickerMain.main 1 0 4 [TStr "AAA"] [])) = 0%nat
  /\ task_puts (trace (TickerMain.main 1 0 4 [TStr "AAA"] [])) = [TStr "AAA"]
  /\ result (TickerMain.main 1 0 4 [TStr "AAA"] []) = Blocked.
Proof.
  assert (0 <= 0) as H1 by lia.
  assert (1 <= 4) as H2 by lia.
  assert (1 <= 1) as H3 by lia.
  split; [exact H1|]. split; [exact H2|]. split; [exact H3|].
  exact (ticker_main_without_workers 1 0 4 [TStr "AAA"] H1 H2 H3).
Defined.



(** * The workers on a disk that can refuse *)

Lemma puts_writes (path : string) (bufs : list string) :
  puts (map (EWrite path) bufs) = [].
Proof. induction bufs as [|b bufs IH]; [done | exact IH]. Qed.

Lemma opens_writes (path : string) (bufs : list string) :
  opens (map (EWrite path) bufs) = [].
Proof. induction bufs as [|b bufs IH]; [done | exact IH]. Qed.

Lemma for_each_ext {A} (f g : A -> M unit) (xs : list A) :
  Forall (fun x => f x = g x) xs -> for_each f xs = for_each g xs.
Proof.
  induction 1 as [|x xs Hx _ IH]; [done|].
  by rewrite !for_each_cons, Hx, IH.
Qed.

Lemma map_ext_Forall' {A B} (f g : A -> B) (xs : list A) :
  Forall (fun x => f x = g x) xs -> map f xs = map g xs.
Proof. induction 1 as [|x xs Hx _ IH]; [done|]. simpl. by rewrite Hx, IH. Qed.

(** ** The ticker worker *)

Section TickerDiskFacts.
Variable http : string -> response.
Variable open_fails : string -> bool.
Variables base_url out_dir : string.

Local Abbreviation ok := (answered_ok http base_url).
Local Abbreviation url := (ticker_url base_url).
Local Abbreviation file := (ticker_file out_dir).
Local Abbreviation has_body :=
  (fun t => answered_ok http base_url t
            && negb (PyStr.is_empty (body (http (ticker_url base_url t))))).
Local Abbreviation aio_process := (TickerDisk.aio_process http open_fails base_url out_dir).
Local Abbreviation asyncio_sessions :=
  (TickerDisk.asyncio_sessions http open_fails base_url out_dir).
Local Abbreviation sync_one := (TickerDisk.sync_one http open_fails base_url out_dir).
Local Abbreviation sync_process := (TickerDisk.sync_process http open_fails base_url out_dir).

Lemma disk_sync_one_cases (t : task) :
  sync_one t
  = if ok t then
      if open_fails (file t) then ([EGet (url t)], Raised OSError)
      else ([EGet (url t); EOpen (file t) ModeW; EWrite (file t) (body (http (url t)));
             EPut (succeeded t)], Returned tt)
    else ([EGet (url t); EPut (failed t)], Returned tt).
Proof.
  unfold TickerDisk.sync_one, open_file, answered_ok, ticker_url, ticker_file,
    succeeded, failed.
  simpl. destruct (status (http (base_url +:+ str t)) =? 200); simpl; [|done].
  by destruct (open_fails _).
Qed.

Lemma disk_aio_process_cases (t : task) :
  aio_process t
  = if has_body t then
      if open_fails (file t) then ([EGet (url t)], Raised OSError)
      else ([EGet (url t); EOpen (file t) ModeA; EWrite (file t) (body (http (url t)))],
            Returned (succeeded t))
    else ([EGet (url t)], Returned (failed t)).
Proof.
  unfold TickerDisk.aio_process, Ticker.get, open_file, answered_ok, ticker_url,
    ticker_file, succeeded, failed.
  simpl. destruct (status (http (base_url +:+ str t)) =? 200); simpl; [|done].
  destruct (body (http (base_url +:+ str t))); simpl; [done|].
  by destruct (open_fails _).
Qed.

(** Where the disk lets the worker open the files it needs, the worker does
    what it does on a disk that refuses nothing. *)
Lemma disk_sync_process_opened (tickers : list task) :
  Forall (fun t => ok t = true -> open_fails (file t) = false) tickers ->
  sync_process tickers = Ticker.sync_process http base_url out_dir tickers.
Proof.
  intros Hopen. unfold TickerDisk.sync_process, Ticker.sync_process.
  apply for_each_ext. eapply Forall_impl; [exact Hopen|]. intros t Ht. simpl in Ht.
  rewrite disk_sync_one_cases, ticker_sync_one_cases.
  destruct (ok t); [|done]. by rewrite Ht.
Qed.

Lemma disk_asyncio_sessions_opened (sched : list nat) (tickers : list task) :
  Forall (fun t => has_body t = true -> open_fails (file t) = false) tickers ->
  asyncio_sessions sched tickers
  = Ticker.asyncio_sessions http base_url out_dir sched tickers.
Proof.
  intros Hopen. unfold TickerDisk.asyncio_sessions, Ticker.asyncio_sessions.
  assert (map aio_process tickers
          = map (Ticker.aio_process http base_url out_dir) tickers) as ->; [|done].
  apply map_ext_Forall'. eapply Forall_impl; [exact Hopen|]. intros t Ht. simpl in Ht.
  rewrite disk_aio_process_cases, ticker_aio_process_cases.
  destruct (answered_ok http base_url t && _); [|done]. by rewrite Ht.
Qed.

(** X1.  In sync mode, on a disk that lets the worker open the file of every
    ticker answered with 200, the worker goes through its batch in the
    order received and returns: one request per ticker, one record per
    ticker in batch order (success exactly for status 200), and a file
    opened exactly for the tickers answered with 200. *)
Theorem ticker_sync_in_batch_order (tickers : list task) :
  Forall (fun t => ok t = true -> open_fails (file t) = false) tickers ->
  result (sync_process tickers) = Returned tt
  /\ gets (trace (sync_process tickers)) = map url tickers
  /\ puts (trace (sync_process tickers))
     = map (fun t => if ok t then succeeded t else failed t) tickers
  /\ opens (trace (sync_process tickers))
     = map file (filter (fun t => ok t = true) tickers).
Proof.
  intros Hopen. rewrite (disk_sync_process_opened tickers Hopen).
  apply ticker_sync_in_batch_order_facts.
Qed.

(** X2.  In async mode, on a disk that lets the worker open the file of
    every ticker answered with 200 and a non-empty body, the records do not
    depend on how the event loop schedules the coroutines: for every
    schedule the session returns, has requested every ticker of the batch
    exactly once, and puts one record per ticker in batch order, success
    exactly for status 200 with a non-empty body. *)
Theorem ticker_async_records_schedule_free (sched : list nat) (tickers : list task) :
  Forall (fun t => has_body t = true -> open_fails (file t) = false) tickers ->
  result (asyncio_sessions sched tickers) = Returned tt
  /\ gets (trace (asyncio_sessions sched tickers)) ≡ₚ map url tickers
  /\ puts (trace (asyncio_sessions sched tickers))
     = map (fun t => if has_body t then succeeded t else failed t) tickers.
Proof.
  intros Hopen. rewrite (disk_asyncio_sessions_opened sched tickers Hopen).
  apply ticker_async_records_schedule_free_facts.
Qed.

Lemma disk_sync_process_cons (t : task) (tickers : list task) :
  sync_process (t :: tickers) = bind (sync_one t) (fun _ => sync_process tickers).
Proof. reflexivity. Qed.

Lemma disk_sync_process_refused (pre post : list task) (t : task) :
  Forall (fun t => ok t = true -> open_fails (file t) = false) pre ->
  ok t = true -> open_fails (file t) = true ->
  sync_process (pre ++ t :: post)
  = (trace (sync_process pre) ++ [EGet (url t)], Raised OSError).
Proof.
  intros Hpre Hok Hfail. induction Hpre as [|p pre Hp _ IH].
  - simpl app. rewrite disk_sync_process_cons, disk_sync_one_cases, Hok, Hfail. done.
  - rewrite <- app_comm_cons, !disk_sync_process_cons, IH, disk_sync_one_cases.
    destruct (ok p); [rewrite (Hp eq_refl)|]; rewrite !bind_returned; by simpl.
Qed.

(** X24.  In sync mode a file that cannot be opened ends the worker's run at
    the first ticker answered with 200 that needs it: the worker has
    processed the tickers before it and requested this one, and raises;
    it puts no record for this ticker or any later one, requests none of
    the later ones, and never makes the closing [task_done] call. *)
Theorem ticker_sync_refused_file (mode : string) (sched : list nat)
    (pre post rest : list task) (t : task) :
  String.eqb mode "async" = false ->
  Forall not_done (pre ++ t :: post) ->
  Forall (fun t => ok t = true -> open_fails (file t) = false) pre ->
  ok t = true -> open_fails (file t) = true ->
  TickerDisk.run http open_fails base_url out_dir mode sched
    ((pre ++ t :: post) ++ DONE :: rest)
  = (replicate (length (pre ++ t :: post)) ETaskDone
       ++ trace (sync_process pre) ++ [EGet (url t)],
     Raised OSError).
Proof.
  intros Hmode Hbatch Hpre Hok Hfail. unfold TickerDisk.run, TickerDisk.dispatch.
  rewrite (ticker_intake_stops _ rest [] Hbatch), bind_returned, Hmode. simpl.
  fold (sync_process (pre ++ t :: post)).
  by rewrite (disk_sync_process_refused pre post t Hpre Hok Hfail).
Qed.

Lemma disk_coroutines_no_put (tickers : list task) :
  Forall (fun c => Forall not_put (trace c)) (map aio_process tickers).
Proof.
  apply Forall_map, Forall_forall. intros t _. rewrite disk_aio_process_cases.
  destruct (answered_ok http base_url t && _); [destruct (open_fails _)|];
    no_put_events.
Qed.

Lemma disk_coroutines_return_or_raise (tickers : list task) :
  Forall (returns_or_raises OSError) (map aio_process tickers).
Proof.
  apply Forall_map, Forall_forall. intros t _.
  unfold returns_or_raises. rewrite disk_aio_process_cases.
  destruct (answered_ok http base_url t && _); [destruct (open_fails _)|]; done.
Qed.

(** X25.  In async mode one file that cannot be opened takes the whole
    session down: when some ticker of the batch is answered with 200 and a
    non-empty body and its file cannot be opened, the session raises
    whatever the schedule, and puts no record at all, not even for the
    tickers that were fetched and saved or that failed. *)
Theorem ticker_async_refused_file (sched : list nat) (tickers : list task) (t : task) :
  t ∈ tickers ->
  has_body t = true -> open_fails (file t) = true ->
  result (asyncio_sessions sched tickers) = Raised OSError
  /\ puts (trace (asyncio_sessions sched tickers)) = [].
Proof.
  intros Hin Hbody Hfail. unfold TickerDisk.asyncio_sessions.
  pose proof (gather_returns_or_raises OSError sched _
                (disk_coroutines_return_or_raise tickers)) as Hend.
  pose proof (Forall_gather not_put sched _ (disk_coroutines_no_put tickers)) as Hnp.
  unfold returns_or_raises in Hend.
  destruct (gather sched _) as [gtr [vals|e|]] eqn:Hg; simpl in Hend, Hnp; [|subst e|done].
  - exfalso. apply gather_returned_all_return in Hg.
    apply list_elem_of_lookup in Hin as [i Hi].
    assert (map aio_process tickers !! i = Some (aio_process t)) as Hci
      by (by rewrite list_lookup_fmap, Hi).
    destruct (Forall2_lookup_l _ _ _ _ _ Hg Hci) as (a & _ & Ha).
    rewrite disk_aio_process_cases, Hbody, Hfail in Ha. done.
  - simpl. split; [done|]. by apply puts_nil_Forall.
Qed.

Lemma disk_dispatch_opened (mode : string) (sched : list nat) (tickers : list task) :
  Forall (fun t => open_fails (file t) = false) tickers ->
  TickerDisk.dispatch http open_fails base_url out_dir mode sched tickers
  = ticker_dispatch http base_url out_dir mode sched tickers.
Proof.
  intros Hopen. unfold TickerDisk.dispatch, ticker_dispatch.
  destruct (String.eqb mode "async").
  - apply disk_asyncio_sessions_opened.
    eapply Forall_impl; [exact Hopen|]. by intros t Ht _.
  - apply disk_sync_process_opened.
    eapply Forall_impl; [exact Hopen|]. by intros t Ht _.
Qed.

(** X7.  On a disk that lets it open the files of its batch, a ticker worker
    that is handed its ['done'] calls [task_done] once for every [get] it
    made: once per item of its batch and once for the ['done'], in either
    mode and for every schedule. *)
Theorem ticker_acknowledges_every_get (mode : string)
    (sched : list nat) (pre post : list task) :
  Forall not_done pre ->
  Forall (fun t => open_fails (file t) = false) pre ->
  acks (trace (TickerDisk.run http open_fails base_url out_dir mode sched
                 (pre ++ DONE :: post)))
    = S (length pre).
Proof.
  intros Hpre Hopen.
  rewrite <- (ticker_acknowledges_every_get_model http base_url out_dir mode sched
                pre post Hpre).
  unfold TickerDisk.run, Ticker.run.
  rewrite (ticker_intake_stops pre post [] Hpre), !bind_returned.
  cbn beta iota. simpl app.
  rewrite (disk_dispatch_opened mode sched pre Hopen). done.
Qed.


End TickerDiskFacts.

(** ** The image worker *)

Section ImageDiskFacts.
Variable http : string -> response.
Variable img_srcs : string -> option (list string).
Variable open_fails : string -> bool.
Variable reads : string -> list string.
Variables config_URL config_OUT_DIR url item : string.

Local Abbreviation ok := (image_ok http).
Local Abbreviation images := (page_images http img_srcs url item).
Local Abbreviation async_path :=
  (fun image_url => config_OUT_DIR +:+ "/" +:+ PyStr.last_segment image_url).
Local Abbreviation sync_path :=
  (fun image_url => "images/" +:+ PyStr.last_segment image_url).
Local Abbreviation listings_async := (Image.listings_async http img_srcs config_URL item).
Local Abbreviation aio_process := (ImageDisk.aio_process http open_fails config_OUT_DIR).
Local Abbreviation asyncio_sessions :=
  (ImageDisk.asyncio_sessions http img_srcs open_fails config_URL config_OUT_DIR item).
Local Abbreviation sync_image := (ImageDisk.sync_image http open_fails reads).
Local Abbreviation sync_page := (ImageDisk.sync_page http img_srcs open_fails reads url item).
Local Abbreviation sync_process :=
  (ImageDisk.sync_process http img_srcs open_fails reads url item).

Lemma disk_image_aio_process_opened (image_url content_type : string) :
  open_fails (async_path image_url) = false ->
  aio_process image_url content_type
  = Image.aio_process http config_OUT_DIR image_url content_type.
Proof.
  intros Hopen. unfold ImageDisk.aio_process, Image.aio_process, open_file.
  destruct (Image.get http image_url content_type) as [tr [image| |]]; [|done..].
  simpl. destruct (Image.truthy image); [|done]. by rewrite Hopen.
Qed.

Lemma disk_image_asyncio_sessions_opened
    (sched : list nat) (pages : list task) (urls : list string) :
  result (listings_async pages) = Returned urls ->
  Forall (fun u => open_fails (async_path u) = false) urls ->
  asyncio_sessions sched pages
  = Image.asyncio_sessions http img_srcs config_URL config_OUT_DIR item sched pages.
Proof.
  intros Hl Hopen. unfold ImageDisk.asyncio_sessions, Image.asyncio_sessions.
  destruct (listings_async pages) as [ltr o]. simpl in Hl. subst o.
  rewrite !bind_returned.
  assert (map (fun u => aio_process u "image") urls
          = map (fun u => Image.aio_process http config_OUT_DIR u "image") urls) as ->;
    [|done].
  apply map_ext_Forall'. eapply Forall_impl; [exact Hopen|]. intros u Hu.
  by apply disk_image_aio_process_opened.
Qed.

(** X9.  In async mode, when every image of the batch is answered with 200
    and the disk lets the worker open the file of every image, the session
    returns and puts one record ['Fetch succeeded: <url>'] per image, in the
    order of the listings, whatever the schedule. *)
Theorem image_async_all_good_records
    (sched : list nat) (pages : list task) (urls : list string) :
  result (listings_async pages) = Returned urls ->
  Forall (fun u => ok u = true) urls ->
  Forall (fun u => open_fails (async_path u) = false) urls ->
  result (asyncio_sessions sched pages) = Returned tt
  /\ puts (trace (asyncio_sessions sched pages)) = map image_record urls.
Proof.
  intros Hl Hok Hopen.
  rewrite (disk_image_asyncio_sessions_opened sched pages urls Hl Hopen).
  by apply image_async_all_good_records_model.
Qed.

Lemma disk_sync_image_cases (page : task) (image_url : string) :
  sync_image page image_url
  = if ok image_url then
      if open_fails (sync_path image_url) then ([EGet image_url], Raised OSError)
      else (EGet image_url :: EOpen (sync_path image_url) ModeWB
              :: map (EWrite (sync_path image_url)) (reads (body (http image_url)))
              ++ [EPut (succeeded page)],
            Returned tt)
    else ([EGet image_url], Returned tt).
Proof.
  unfold ImageDisk.sync_image, open_file, image_ok, succeeded.
  destruct (status (http image_url) =? 200); [|done].
  destruct (open_fails _); [done|].
  cbv zeta. unfold emit at 1 2. rewrite !bind_returned.
  rewrite (for_each_emit (EWrite ("images/" +:+ PyStr.last_segment image_url))).
  rewrite bind_returned. done.
Qed.

Lemma disk_sync_images (page : task) (urls : list string) :
  Forall (fun u => ok u = true -> open_fails (sync_path u) = false) urls ->
  result (for_each (sync_image page) urls) = Returned tt
  /\ puts (trace (for_each (sync_image page) urls))
     = map (fun _ => succeeded page) (filter (fun u => ok u = true) urls)
  /\ opens (trace (for_each (sync_image page) urls))
     = map sync_path (filter (fun u => ok u = true) urls).
Proof.
  induction 1 as [|u urls Hu _ (IHr & IHp & IHo)]; [done|].
  rewrite for_each_cons, disk_sync_image_cases, filter_cons.
  destruct (decide (ok u = true)) as [Hok|Hok].
  - rewrite Hok, (Hu Hok), bind_returned. simpl.
    rewrite !puts_app, !opens_app, puts_writes, opens_writes. simpl.
    by rewrite IHp, IHo.
  - apply not_true_is_false in Hok. rewrite Hok, bind_returned. simpl.
    by rewrite IHp, IHo.
Qed.

Lemma disk_sync_page_parsed (page : task) (srcs : list string) :
  img_srcs (body (http (listing_url url item page))) = Some srcs ->
  sync_page page
  = bind ([EGet (listing_url url item page)], Returned tt)
         (fun _ => for_each (sync_image page) (Image.wanted srcs)).
Proof.
  intros Hs. unfold ImageDisk.sync_page. fold (listing_url url item page).
  cbv zeta. unfold emit at 1. by rewrite !bind_returned, Hs.
Qed.

(** X11.  In sync mode, when every listing parses and the disk lets the
    worker open the file of every image answered with 200, the image worker
    returns having put one record for every image answered with 200, each
    carrying the number of its page, nothing for the other images, and
    having opened one file under [images/] for each of those images: the
    records count images, not pages. *)
Theorem image_sync_records_count_images (pages : list task) :
  Forall (fun p => img_srcs (body (http (listing_url url item p))) <> None) pages ->
  Forall (fun p => Forall (fun u => ok u = true -> open_fails (sync_path u) = false)
                          (images p)) pages ->
  result (sync_process pages) = Returned tt
  /\ puts (trace (sync_process pages))
     = flat_map (fun p => map (fun _ => succeeded p)
                              (filter (fun u => ok u = true) (images p))) pages
  /\ opens (trace (sync_process pages))
     = flat_map (fun p => map sync_path (filter (fun u => ok u = true) (images p))) pages.
Proof.
  unfold ImageDisk.sync_process, page_images.
  intros Hparse Hopen.
  induction Hparse as [|p pages Hp _ IH]; [done|].
  apply Forall_cons in Hopen as [Hopen_p Hopen].
  destruct (IH Hopen) as (IHr & IHp & IHo). clear IH.
  rewrite for_each_cons.
  destruct (img_srcs (body (http (listing_url url item p)))) as [srcs|] eqn:Hs; [|done].
  rewrite (disk_sync_page_parsed p srcs Hs).
  destruct (disk_sync_images p (Image.wanted srcs) Hopen_p) as (Hr & Hpp & Hpo).
  destruct (for_each (sync_image p) (Image.wanted srcs)) as [tr o]. simpl in Hr, Hpp, Hpo.
  subst o. rewrite !bind_returned. simpl. rewrite Hs.
  destruct (for_each sync_page pages) as [tr' o']. simpl in IHr, IHp, IHo |- *.
  by rewrite puts_app, opens_app, Hpp, Hpo, IHp, IHo.
Qed.

(** X26.  In sync mode an image file that cannot be opened (as for an image
    URL that ends in a slash, whose file name is empty) ends the worker's
    run at that image: the images of the page before it are fetched and
    saved, this image is requested, and the worker raises without a record
    for it and without requesting any later image. *)
Theorem image_sync_refused_file (page : task) (srcs pre post : list string) (u : string) :
  img_srcs (body (http (listing_url url item page))) = Some srcs ->
  Image.wanted srcs = pre ++ u :: post ->
  Forall (fun u => ok u = true -> open_fails (sync_path u) = false) pre ->
  ok u = true -> open_fails (sync_path u) = true ->
  sync_page page
  = (EGet (listing_url url item page)
       :: trace (for_each (sync_image page) pre) ++ [EGet u],
     Raised OSError).
Proof.
  intros Hs Hwanted Hpre Hok Hfail.
  rewrite (disk_sync_page_parsed page srcs Hs), Hwanted, bind_returned.
  assert (for_each (sync_image page) (pre ++ u :: post)
          = (trace (for_each (sync_image page) pre) ++ [EGet u], Raised OSError)) as ->;
    [|done].
  clear Hwanted. induction Hpre as [|v pre Hv _ IH].
  - simpl app. by rewrite for_each_cons, disk_sync_image_cases, Hok, Hfail.
  - rewrite <- app_comm_cons, !for_each_cons, IH, disk_sync_image_cases.
    destruct (ok v); [rewrite (Hv eq_refl)|]; rewrite !bind_returned; simpl;
      by rewrite <- ?app_assoc.
Qed.

End ImageDiskFacts.

(** ** On sample runs *)

Lemma ticker_sync_in_batch_order_witness :
  result (TickerDisk.sync_process Sample.ticker_http Disk.no_tickerdata "http://x/" "out"
            [TStr "AAA"; TStr "CCC"]) = Returned tt
  /\ gets (trace (TickerDisk.sync_process Sample.ticker_http Disk.no_tickerdata "http://x/"
                    "out" [TStr "AAA"; TStr "CCC"]))
     = map (ticker_url "http://x/") [TStr "AAA"; TStr "CCC"]
  /\ puts (trace (TickerDisk.sync_process Sample.ticker_http Disk.no_tickerdata "http://x/"
                    "out" [TStr "AAA"; TStr "CCC"]))
     = map (fun t => if answered_ok Sample.ticker_http "http://x/" t
                     then succeeded t else failed t) [TStr "AAA"; TStr "CCC"]
  /\ opens (trace (TickerDisk.sync_process Sample.ticker_http Disk.no_tickerdata "http://x/"
                     "out" [TStr "AAA"; TStr "CCC"]))
     = map (ticker_file "out")
           (filter (fun t => answered_ok Sample.ticker_http "http://x/" t = true)
                   [TStr "AAA"; TStr "CCC"]).
Proof.
  assert (Forall (fun t => answered_ok Sample.ticker_http "http://x/" t = true ->
                           Disk.no_tickerdata (ticker_file "out" t) = false)
                 [TStr "AAA"; TStr "CCC"]) as Hopen.
  { apply Forall_cons_2; [intros _; vm_compute; reflexivity|].
    apply Forall_cons_2; [intros _; vm_compute; reflexivity | apply Forall_nil_2]. }
  exact (ticker_sync_in_batch_order Sample.ticker_http Disk.no_tickerdata "http://x/" "out"
           [TStr "AAA"; TStr "CCC"] Hopen).
Defined.

Lemma ticker_async_records_schedule_free_witness :
  result (TickerDisk.asyncio_sessions Sample.ticker_http Disk.no_tickerdata "http://x/" "out"
            [1; 0]%nat [TStr "AAA"; TStr "CCC"]) = Returned tt
  /\ gets (trace (TickerDisk.asyncio_sessions Sample.ticker_http Disk.no_tickerdata
                    "http://x/" "out" [1; 0]%nat [TStr "AAA"; TStr "CCC"]))
     ≡ₚ map (ticker_url "http://x/") [TStr "AAA"; TStr "CCC"]
  /\ puts (trace (TickerDisk.asyncio_sessions Sample.ticker_http Disk.no_tickerdata
                    "http://x/" "out" [1; 0]%nat [TStr "AAA"; TStr "CCC"]))
     = [succeeded (TStr "AAA"); failed (TStr "CCC")].
Proof.
  assert (Forall (fun t =>
            answered_ok Sample.ticker_http "http://x/" t
            && negb (PyStr.is_empty (body (Sample.ticker_http (ticker_url "http://x/" t))))
            = true ->
            Disk.no_tickerdata (ticker_file "out" t) = false)
                 [TStr "AAA"; TStr "CCC"]) as Hopen.
  { apply Forall_cons_2; [intros _; vm_compute; reflexivity|].
    apply Forall_cons_2; [intros _; vm_compute; reflexivity | apply Forall_nil_2]. }
  exact (ticker_async_records_schedule_free Sample.ticker_http Disk.no_tickerdata
           "http://x/" "out" [1; 0]%nat [TStr "AAA"; TStr "CCC"] Hopen).
Defined.

Lemma ticker_sync_refused_file_witness :
  TickerDisk.run Sample.ticker_http Disk.no_tickerdata "http://x/" "tickerdata" "sync" []
    (([TStr "CCC"] ++ TStr "AAA" :: [TStr "BBB"]) ++ DONE :: [])
  = ([ETaskDone; ETaskDone; ETaskDone;
      EGet "http://x/CCC"; EPut "CCC fetch failed"; EGet "http://x/AAA"],
     Raised OSError).
Proof.
  assert (Forall not_done ([TStr "CCC"] ++ TStr "AAA" :: [TStr "BBB"])) as Hbatch.
  { apply Forall_cons_2; [reflexivity|]. apply Forall_cons_2; [reflexivity|].
    apply Forall_cons_2; [reflexivity | apply Forall_nil_2]. }
  assert (Forall (fun t => answered_ok Sample.ticker_http "http://x/" t = true ->
                           Disk.no_tickerdata (ticker_file "tickerdata" t) = false)
                 [TStr "CCC"]) as Hpre.
  { apply Forall_cons_2; [|apply Forall_nil_2].
    intros H. vm_compute in H. discriminate H. }
  exact (ticker_sync_refused_file Sample.ticker_http Disk.no_tickerdata "http://x/"
           "tickerdata" "sync" [] [TStr "CCC"] [TStr "BBB"] [] (TStr "AAA")
           eq_refl Hbatch Hpre eq_refl eq_refl).
Defined.

Lemma ticker_async_refused_file_witness :
  result (TickerDisk.asyncio_sessions Sample.ticker_http Disk.no_tickerdata "http://x/"
            "tickerdata" [0]%nat [TStr "CCC"; TStr "AAA"]) = Raised OSError
  /\ puts (trace (TickerDisk.asyncio_sessions Sample.ticker_http Disk.no_tickerdata
                    "http://x/" "tickerdata" [0]%nat [TStr "CCC"; TStr "AAA"])) = [].
Proof.
  assert (TStr "AAA" ∈ [TStr "CCC"; TStr "AAA"]) as Hin.
  { apply list_elem_of_further, list_elem_of_here. }
  exact (ticker_async_refused_file Sample.ticker_http Disk.no_tickerdata "http://x/"
           "tickerdata" [0]%nat [TStr "CCC"; TStr "AAA"] (TStr "AAA") Hin eq_refl eq_refl).
Defined.

Lemma ticker_acknowledges_every_get_witness :
  Forall not_done [TStr "AAA"; TStr "CCC"]
  /\ acks (trace (TickerDisk.run Sample.ticker_http Disk.no_tickerdata "http://x/" "out"
                    "async" [1]%nat ([TStr "AAA"; TStr "CCC"] ++ DONE :: [])))
     = S (length [TStr "AAA"; TStr "CCC"]).
Proof.
  assert (Forall not_done [TStr "AAA"; TStr "CCC"]) as H.
  { apply Forall_cons_2; [reflexivity|].
    apply Forall_cons_2; [reflexivity | apply Forall_nil_2]. }
  assert (Forall (fun t => Disk.no_tickerdata (ticker_file "out" t) = false)
                 [TStr "AAA"; TStr "CCC"]) as Hopen.
  { apply Forall_cons_2; [vm_compute; reflexivity|].
    apply Forall_cons_2; [vm_compute; reflexivity | apply Forall_nil_2]. }
  split; [exact H|].
  exact (ticker_acknowledges_every_get Sample.ticker_http Disk.no_tickerdata "http://x/"
           "out" "async" [1]%nat [TStr "AAA"; TStr "CCC"] [] H Hopen).
Defined.


Lemma image_async_all_good_records_witness :
  result (ImageDisk.asyncio_sessions Sample.image_http Sample.img_srcs Disk.out_is_directory
            "http://s/" "out" "cat" [1; 0]%nat [TInt 1; TInt 2]) = Returned tt
  /\ puts (trace (ImageDisk.asyncio_sessions Sample.image_http Sample.img_srcs
                    Disk.out_is_directory "http://s/" "out" "cat" [1; 0]%nat
                    [TInt 1; TInt 2]))
     = map image_record [Sample.IMG_A; Sample.IMG_B].
Proof.
  assert (result (Image.listings_async Sample.image_http Sample.img_srcs "http://s/" "cat"
                    [TInt 1; TInt 2])
          = Returned [Sample.IMG_A; Sample.IMG_B]) as Hl
    by (vm_compute; reflexivity).
  assert (Forall (fun u => image_ok Sample.image_http u = true)
                 [Sample.IMG_A; Sample.IMG_B]) as Hok.
  { apply Forall_cons_2; [vm_compute; reflexivity|].
    apply Forall_cons_2; [vm_compute; reflexivity | apply Forall_nil_2]. }
  assert (Forall (fun u => Disk.out_is_directory ("out" +:+ "/" +:+ PyStr.last_segment u)
                           = false) [Sample.IMG_A; Sample.IMG_B]) as Hopen.
  { apply Forall_cons_2; [vm_compute; reflexivity|].
    apply Forall_cons_2; [vm_compute; reflexivity | apply Forall_nil_2]. }
  exact (image_async_all_good_records Sample.image_http Sample.img_srcs Disk.out_is_directory
           "http://s/" "out" "cat" [1; 0]%nat [TInt 1; TInt 2] _ Hl Hok Hopen).
Defined.

Lemma image_sync_records_count_images_witness :
  puts (trace (ImageDisk.sync_process Sample.image_http Sample.img_srcs
                 Disk.images_is_directory Disk.whole "http://s/" "cat"
                 [TInt 1; TInt 2; TInt 3]))
  = flat_map (fun p => map (fun _ => succeeded p)
                (filter (fun u => image_ok Sample.image_http u = true)
                        (page_images Sample.image_http Sample.img_srcs "http://s/" "cat" p)))
             [TInt 1; TInt 2; TInt 3].
Proof.
  assert (Forall (fun p => Sample.img_srcs
                             (body (Sample.image_http (listing_url "http://s/" "cat" p)))
                           <> None) [TInt 1; TInt 2; TInt 3]) as Hparse.
  { apply Forall_cons_2; [intros H; vm_compute in H; discriminate H|].
    apply Forall_cons_2; [intros H; vm_compute in H; discriminate H|].
    apply Forall_cons_2; [intros H; vm_compute in H; discriminate H|].
    apply Forall_nil_2. }
  assert (Forall (fun p => Forall (fun u => image_ok Sample.image_http u = true ->
                              Disk.images_is_directory ("images/" +:+ PyStr.last_segment u)
                              = false)
                    (page_images Sample.image_http Sample.img_srcs "http://s/" "cat" p))
                 [TInt 1; TInt 2; TInt 3]) as Hopen.
  { apply Forall_cons_2.
    { apply Forall_cons_2; [intros _; vm_compute; reflexivity|].
      apply Forall_cons_2; [intros _; vm_compute; reflexivity | apply Forall_nil_2]. }
    apply Forall_cons_2; [apply Forall_nil_2|].
    apply Forall_cons_2; [|apply Forall_nil_2].
    apply Forall_cons_2; [intros _; vm_compute; reflexivity | apply Forall_nil_2]. }
  exact (proj1 (proj2 (image_sync_records_count_images Sample.image_http Sample.img_srcs
                         Disk.images_is_directory Disk.whole "http://s/" "cat"
                         [TInt 1; TInt 2; TInt 3] Hparse Hopen))).
Defined.

Lemma image_sync_refused_file_witness :
  ImageDisk.sync_page Disk.slash_http Disk.slash_srcs Disk.images_is_directory Disk.whole
    "http://s/" "cat" (TInt 1)
  = (EGet (listing_url "http://s/" "cat" (TInt 1))
       :: trace (for_each (ImageDisk.sync_image Disk.slash_http Disk.images_is_directory
                             Disk.whole (TInt 1)) [Sample.IMG_A])
       ++ [EGet Disk.IMG_SLASH],
     Raised OSError).
Proof.
  assert (Disk.slash_srcs (body (Disk.slash_http (listing_url "http://s/" "cat" (TInt 1))))
          = Some [Sample.IMG_A; Disk.IMG_SLASH; Sample.IMG_B]) as Hs
    by (vm_compute; reflexivity).
  assert (Image.wanted [Sample.IMG_A; Disk.IMG_SLASH; Sample.IMG_B]
          = [Sample.IMG_A] ++ Disk.IMG_SLASH :: [Sample.IMG_B]) as Hwanted
    by (vm_compute; reflexivity).
  assert (Forall (fun u => image_ok Disk.slash_http u = true ->
                           Disk.images_is_directory ("images/" +:+ PyStr.last_segment u)
                           = false) [Sample.IMG_A]) as Hpre.
  { apply Forall_cons_2; [intros _; vm_compute; reflexivity | apply Forall_nil_2]. }
  exact (image_sync_refused_file Disk.slash_http Disk.slash_srcs Disk.images_is_directory
           Disk.whole "http://s/" "cat" (TInt 1) _ [Sample.IMG_A] [Sample.IMG_B]
           Disk.IMG_SLASH Hs Hwanted Hpre eq_refl eq_refl).
Defined.
